(** * Hierarchical configuration diff engine of check_cisco_nxos_config_diff_check.py

    A shallow embedding of [ConfigDiffer] (parser, similarity scoring, greedy
    matcher), of [DiffRenderer._build_tree] / [_render_item] and of the
    compliance summary of [ConfigAuditDiffCheck.handle_initial], followed by
    the properties the specification states about them.

    Conventions of the embedding:
    - a Python [str] is the list of its code points ([pystr]);
    - a Python [float] is an IEEE-754 binary64 value, here a [spec_float] with
      the operations of [SpecFloat] at precision 53 and exponent bound 1024;
    - a Python [dict] whose insertion order is observable is an association
      list in insertion order; [dict] keyed [1..n] is the list of its values;
    - [id(item)] of a parsed target item is the position of that item in the
      parsed target (the items are distinct live objects);
    - a function that can raise returns in the error monad [M]. *)

From Stdlib Require Import ZArith Lia Floats.SpecFloat.
From stdpp Require Import base option list strings gmap.

Open Scope Z_scope.
Open Scope nat_scope.

(** ** Strings *)

Module Str.

(** A code point. *)
Definition char := N.
Definition pystr := list char.

(** [Py_UNICODE_ISSPACE]: what [str.strip()] and [str.split()] remove. *)
Definition is_space (c : char) : bool :=
  ((9 <=? c) && (c <=? 13) || (28 <=? c) && (c <=? 32)
   || (c =? 133) || (c =? 160) || (c =? 5760)
   || (8192 <=? c) && (c <=? 8202)
   || (c =? 8232) || (c =? 8233) || (c =? 8239) || (c =? 8287)
   || (c =? 12288))%N.

(** [Py_UNICODE_ISLINEBREAK]: where [str.splitlines()] cuts. *)
Definition is_linebreak (c : char) : bool :=
  ((10 <=? c) && (c <=? 13) || (28 <=? c) && (c <=? 30)
   || (c =? 133) || (c =? 8232) || (c =? 8233))%N.

Definition SPACE : char := 32%N.
Definition LF : char := 10%N.
Definition CR : char := 13%N.

(** [s.splitlines()]: [cur] is the line being read, in reverse;
    [skip_lf] holds right after a carriage return, whose line feed belongs
    to the same line boundary. *)
Fixpoint splitlines_aux (s cur : pystr) (skip_lf : bool) : list pystr :=
  match s with
  | [] => match cur with [] => [] | _ => [reverse cur] end
  | c :: s' =>
      if skip_lf && (c =? LF)%N then splitlines_aux s' cur false
      else if is_linebreak c
           then reverse cur :: splitlines_aux s' [] (c =? CR)%N
           else splitlines_aux s' (c :: cur) false
  end.

Definition splitlines (s : pystr) : list pystr := splitlines_aux s [] false.

Fixpoint lstrip (s : pystr) : pystr :=
  match s with
  | c :: s' => if is_space c then lstrip s' else s
  | [] => []
  end.

(** [s.strip()] *)
Definition strip (s : pystr) : pystr :=
  reverse (lstrip (reverse (lstrip s))).

(** [len(line) - len(line.lstrip(" "))] *)
Fixpoint indent (line : pystr) : nat :=
  match line with
  | c :: s' => if (c =? SPACE)%N then S (indent s') else 0
  | [] => 0
  end.

(** [s.split()]: the maximal runs of non-space characters. *)
Fixpoint split_aux (s cur : pystr) : list pystr :=
  match s with
  | [] => match cur with [] => [] | _ => [reverse cur] end
  | c :: s' =>
      if is_space c
      then match cur with
           | [] => split_aux s' []
           | _ => reverse cur :: split_aux s' []
           end
      else split_aux s' (c :: cur)
  end.

Definition split (s : pystr) : list pystr := split_aux s [].

(** [sep.join(parts)] *)
Fixpoint join (sep : pystr) (parts : list pystr) : pystr :=
  match parts with
  | [] => []
  | [p] => p
  | p :: ps => p ++ sep ++ join sep ps
  end.

(** [s.split(sep)] for a one-character separator: the pieces between the
    occurrences of [sep]; always at least one piece. *)
Fixpoint split_on (sep : char) (s : pystr) : list pystr :=
  match s with
  | [] => [[]]
  | c :: s' =>
      if (c =? sep)%N then [] :: split_on sep s'
      else match split_on sep s' with
           | p :: ps => (c :: p) :: ps
           | [] => [[c]]
           end
  end.

(** Literals: the characters of an ASCII string as code points. *)
Definition lit (s : String.string) : pystr :=
  map (fun a => N.of_nat (Ascii.nat_of_ascii a)) (String.list_ascii_of_string s).
Arguments lit s%_string.

End Str.

Import Str.

(** ** Hierarchy parser: [ConfigDiffer.parse] *)

Definition DELIM : pystr := [61440%N].   (* U+F000 *)
Definition DELIM_char : char := 61440%N.

(** An entry of the parsed dict: keys ["string"], ["path"], ["is_parent"]. *)
Record ParsedLine := {
  p_string : pystr;
  p_path : pystr;
  p_is_parent : bool
}.

(** [while path_stack and path_stack[-1][0] >= indent_level: path_stack.pop()].
    The stack is kept with its top ([path_stack[-1]]) at the head. *)
Fixpoint pop_scopes (path_stack : list (nat * pystr)) (indent_level : nat)
  : list (nat * pystr) :=
  match path_stack with
  | (ind, txt) :: rest =>
      if indent_level <=? ind then pop_scopes rest indent_level
      else path_stack
  | [] => []
  end.

(** The lookahead [for j in range(i + 1, len(lines))]: the first later line
    that is not blank decides, and ends the scan. *)
Fixpoint next_is_deeper (rest : list pystr) (indent_level : nat) : bool :=
  match rest with
  | [] => false
  | l :: rest' =>
      match strip l with
      | [] => next_is_deeper rest' indent_level
      | _ => indent_level <? indent l
      end
  end.

Fixpoint parse_lines (lines : list pystr) (path_stack : list (nat * pystr))
  : list ParsedLine :=
  match lines with
  | [] => []
  | line :: rest =>
      let stripped_line := strip line in
      match stripped_line with
      | [] => parse_lines rest path_stack
      | _ =>
          let indent_level := indent line in
          let path_stack := pop_scopes path_stack indent_level in
          let current_path := join DELIM (map snd (reverse path_stack)) in
          let is_parent := next_is_deeper rest indent_level in
          {| p_string := stripped_line;
             p_path := current_path;
             p_is_parent := is_parent |}
          :: parse_lines rest ((indent_level, stripped_line) :: path_stack)
      end
  end.

(** [parse(cfg)]: the values of the result dict, whose keys are [1..n]. *)
Definition parse (cfg : pystr) : list ParsedLine :=
  parse_lines (splitlines cfg) [].

(** ** Python floats *)

Module Float.

Definition prec : Z := 53%Z.
Definition emax : Z := 1024%Z.

Definition pyfloat := spec_float.

Definition fadd (x y : pyfloat) : pyfloat := SFadd prec emax x y.
Definition fmul (x y : pyfloat) : pyfloat := SFmul prec emax x y.
(** [x < y], [x <= y] on floats *)
Definition flt (x y : pyfloat) : bool := SFltb x y.
Definition fle (x y : pyfloat) : bool := SFleb x y.

(** An [int] as the operand of a true division: the exact integer. *)
Definition of_int (z : Z) : spec_float :=
  match z with
  | Z0 => S754_zero false
  | Zpos p => S754_finite false p 0
  | Zneg p => S754_finite true p 0
  end.

(** [a / b] on two [int]s: the quotient, correctly rounded
    (the divisor is not zero; the callers check). *)
Definition truediv (a b : nat) : pyfloat :=
  SFdiv prec emax (of_int (Z.of_nat a)) (of_int (Z.of_nat b)).

(** The float literals of the source. *)
Definition F0_0 : pyfloat := S754_zero false.
Definition F0_3 : pyfloat := S754_finite false 5404319552844595 (-54).
Definition F0_6 : pyfloat := S754_finite false 5404319552844595 (-53).
Definition F0_7 : pyfloat := S754_finite false 6305039478318694 (-53).
Definition F1_0 : pyfloat := S754_finite false 4503599627370496 (-52).
Definition Fm1_0 : pyfloat := S754_finite true 4503599627370496 (-52).
Definition Fm2_0 : pyfloat := S754_finite true 4503599627370496 (-51).
Definition F100 : pyfloat := S754_finite false 7036874417766400 (-46).

End Float.

Import Float.

(** ** Similarity: the local functions of [ConfigDiffer.compare] *)

(** [for at, bt in zip(a_tokens, b_tokens): if at == bt: match_len += 1
     else: break] *)
Fixpoint common_prefix_len (a_tokens b_tokens : list pystr) : nat :=
  match a_tokens, b_tokens with
  | at_ :: a', bt :: b' =>
      if bool_decide (at_ = bt) then S (common_prefix_len a' b') else 0
  | _, _ => 0
  end.

Definition left_prefix_similarity (a b : pystr) : pyfloat :=
  let a_tokens := split a in
  let b_tokens := split b in
  let max_len := max (length a_tokens) (length b_tokens) in
  if max_len =? 0 then F0_0
  else
    let match_len := common_prefix_len a_tokens b_tokens in
    truediv match_len max_len.

Definition token_set (a : pystr) : gset pystr := list_to_set (split a).

Definition token_jaccard (a b : pystr) : pyfloat :=
  let a_set := token_set a in
  let b_set := token_set b in
  if bool_decide (a_set = ∅) && bool_decide (b_set = ∅) then F1_0
  else truediv (size (a_set ∩ b_set)) (size (a_set ∪ b_set)).

(** [abs(len(a_tokens) - len(b_tokens))] *)
Definition abs_diff (m n : nat) : nat := (m - n) + (n - m).

Definition cisco_similarity (a b : pystr) : pyfloat :=
  let a_tokens := split a in
  let b_tokens := split b in
  match a_tokens, b_tokens with
  | [], _ | _, [] => F0_0
  | a0 :: _, b0 :: _ =>
      if bool_decide (a0 ≠ b0) then F0_0
      else if 4 <? abs_diff (length a_tokens) (length b_tokens) then F0_0
      else
        let prefix_score := left_prefix_similarity a b in
        let token_score := token_jaccard a b in
        fadd (fmul F0_7 prefix_score) (fmul F0_3 token_score)
  end.

(** ** Line matcher: the main logic of [ConfigDiffer.compare] *)

(** A value of [self.results]. The key ["is_added"] exists in the
    target-only records alone; [item.get("is_added")] is falsy elsewhere. *)
Record DiffItem := {
  r_string : pystr;
  r_best_match : pystr;
  r_is_parent : bool;
  r_similarity_score : pyfloat;
  r_is_matched : bool;
  r_diff_positions : list nat;
  r_path : pystr;
  r_is_added : bool
}.

(** A target item together with its identity [id(item)]. *)
Definition Candidate : Type := nat * ParsedLine.

(** [[item for item in self.target_parsed.values()
      if item["path"] == base_path and id(item) not in self.used_target_lines]] *)
Definition candidates (target_parsed : list ParsedLine) (base_path : pystr)
    (used_target_lines : gset nat) : list Candidate :=
  filter (fun c : Candidate => p_path c.2 = base_path ∧ c.1 ∉ used_target_lines)
         (imap pair target_parsed).

(** [for candidate in candidates: ...], from the state
    [(best_match, best_score)]. *)
Fixpoint best_candidate (base_string : pystr) (base_is_parent : bool)
    (cands : list Candidate) (best_match : option Candidate)
    (best_score : pyfloat) : option Candidate * pyfloat :=
  match cands with
  | [] => (best_match, best_score)
  | candidate :: rest =>
      let target_string := p_string candidate.2 in
      if base_is_parent then
        (* Parent commands must match exactly *)
        if bool_decide (base_string = target_string)
        then (Some candidate, F1_0)                               (* break *)
        else best_candidate base_string base_is_parent rest
                            best_match best_score                 (* continue *)
      else
        let score := cisco_similarity base_string target_string in
        if flt best_score score
        then best_candidate base_string base_is_parent rest (Some candidate) score
        else best_candidate base_string base_is_parent rest best_match best_score
  end.

(** [[i for i in range(min_len) if a[i] != b[i]]
     + list(range(min_len, max(len(a), len(b))))] *)
Definition diff_positions (a b : pystr) : list nat :=
  let min_len := min (length a) (length b) in
  filter (fun i => a !! i ≠ b !! i) (seq 0 min_len)
  ++ seq min_len (max (length a) (length b) - min_len).

(** The search of one base line: the best candidate and its score. *)
Definition search (target_parsed : list ParsedLine)
    (used_target_lines : gset nat) (base_item : ParsedLine)
  : option Candidate * pyfloat :=
  best_candidate (p_string base_item) (p_is_parent base_item)
    (candidates target_parsed (p_path base_item) used_target_lines)
    None Fm1_0.

(** The candidate of [search] when
    [is_matched = best_match is not None and best_score >= 0.6]. *)
Definition accepted (target_parsed : list ParsedLine)
    (used_target_lines : gset nat) (base_item : ParsedLine) : option Candidate :=
  match search target_parsed used_target_lines base_item with
  | (Some c, best_score) => if fle F0_6 best_score then Some c else None
  | (None, _) => None
  end.

(** One iteration of [for line_num, base_item in self.base_parsed.items()]:
    the record stored at [self.results[line_num]] and the new
    [self.used_target_lines]. *)
Definition compare_line (target_parsed : list ParsedLine)
    (used_target_lines : gset nat) (base_item : ParsedLine)
  : DiffItem * gset nat :=
  let base_string := p_string base_item in
  let best_score := (search target_parsed used_target_lines base_item).2 in
  match accepted target_parsed used_target_lines base_item with
  | Some best_match =>
      let b := p_string best_match.2 in
      ({| r_string := base_string;
          r_best_match := b;
          r_is_parent := p_is_parent base_item;
          r_similarity_score := best_score;
          r_is_matched := true;
          r_diff_positions := diff_positions base_string b;
          r_path := p_path base_item;
          r_is_added := false |},
       {[ best_match.1 ]} ∪ used_target_lines)
  | None =>
      ({| r_string := base_string;
          r_best_match := [];
          r_is_parent := p_is_parent base_item;
          r_similarity_score := best_score;
          r_is_matched := false;
          r_diff_positions := seq 0 (length base_string);
          r_path := p_path base_item;
          r_is_added := false |},
       used_target_lines)
  end.

Fixpoint compare_base (target_parsed base_items : list ParsedLine)
    (used_target_lines : gset nat) : list DiffItem * gset nat :=
  match base_items with
  | [] => ([], used_target_lines)
  | base_item :: rest =>
      let '(r, used) := compare_line target_parsed used_target_lines base_item in
      let '(rs, used') := compare_base target_parsed rest used in
      (r :: rs, used')
  end.

(** The record of a target-only line. *)
Definition added_item (target_item : ParsedLine) : DiffItem :=
  {| r_string := p_string target_item;
     r_best_match := [];
     r_is_parent := p_is_parent target_item;
     r_similarity_score := Fm2_0;
     r_is_matched := false;
     r_diff_positions := seq 0 (length (p_string target_item));
     r_path := p_path target_item;
     r_is_added := true |}.

(** [for target_item in self.target_parsed.values():
       if id(target_item) in self.used_target_lines: continue ...] *)
Definition unused (target_parsed : list ParsedLine)
    (used_target_lines : gset nat) : list Candidate :=
  filter (fun c : Candidate => c.1 ∉ used_target_lines) (imap pair target_parsed).

Definition added_items (target_parsed : list ParsedLine)
    (used_target_lines : gset nat) : list DiffItem :=
  map (fun c : Candidate => added_item c.2) (unused target_parsed used_target_lines).

(** The matcher on two parsed configurations: the values of [self.results]
    in key order, the base records at keys [1..n], the added ones after. *)
Definition compare_parsed (target_parsed base_parsed : list ParsedLine)
  : list DiffItem :=
  let '(rs, used) := compare_base target_parsed base_parsed ∅ in
  rs ++ added_items target_parsed used.

(** [ConfigDiffer(target_cfg, base_cfg).compare()], then [self.results]. *)
Definition compare (target_cfg base_cfg : pystr) : list DiffItem :=
  compare_parsed (parse target_cfg) (parse base_cfg).

(** The identities consumed by the base lines, one entry per base line
    ([None] where the line stayed unmatched). *)
Fixpoint consumed (target_parsed base_items : list ParsedLine)
    (used_target_lines : gset nat) : list (option nat) :=
  match base_items with
  | [] => []
  | base_item :: rest =>
      let m := accepted target_parsed used_target_lines base_item in
      (fst <$> m) ::
      consumed target_parsed rest
        (match m with
         | Some c => {[ c.1 ]} ∪ used_target_lines
         | None => used_target_lines
         end)
  end.

(** ** Disposition: the case analysis of [DiffRenderer._render_item] *)

Inductive Disposition :=
| Unmatched_Removed
| Unmatched_Added
| Matched_Identical
| Matched_Changed.

Definition disposition (item : DiffItem) : Disposition :=
  if r_is_added item then Unmatched_Added
  else if negb (r_is_matched item) then Unmatched_Removed
  else if flt (r_similarity_score item) F1_0 then Matched_Changed
  else Matched_Identical.

(** The consumed set at the moment base line [k] is examined. *)
Definition used_before (target_parsed base_parsed : list ParsedLine) (k : nat)
  : gset nat :=
  (compare_base target_parsed (take k base_parsed) ∅).2.

(** The consumed set when the loop over the base lines ends. *)
Definition used_final (target_parsed base_parsed : list ParsedLine) : gset nat :=
  (compare_base target_parsed base_parsed ∅).2.

(** ** Classes of floats used in the statements *)

Definition is_nan (x : pyfloat) : bool :=
  match x with S754_nan => true | _ => false end.

(** Zero, a positive number or plus infinity. *)
Definition nonneg (x : pyfloat) : bool :=
  match x with
  | S754_zero false | S754_finite false _ _ | S754_infinity false => true
  | _ => false
  end.

(** ** Exceptions *)

Inductive Exn :=
  IndexError | AttributeError | ValueError | ZeroDivisionError | Diverges.

(** The outcome of a call that can raise. [Diverges] marks a [while] loop
    that is still running when its iteration bound is used up. *)
Inductive M (A : Type) : Type :=
| Ok (a : A)
| Raise (e : Exn).
Arguments Ok {A} a.
Arguments Raise {A} e.

#[global] Instance M_ret : MRet M := @Ok.
#[global] Instance M_bind : MBind M :=
  fun A B f m => match m with Ok a => f a | Raise e => Raise e end.

(** [l[j]] for [j >= 0] *)
Definition getitem {A} (l : list A) (j : nat) : M A :=
  match l !! j with Some x => Ok x | None => Raise IndexError end.

(** [l[-1]] *)
Definition getlast {A} (l : list A) : M A :=
  match last l with Some x => Ok x | None => Raise IndexError end.

(** [l.pop()]: the list that is left *)
Definition pop {A} (l : list A) : M (list A) :=
  match l with [] => Raise IndexError | _ => Ok (take (length l - 1) l) end.

(** ** [ConfigDiffer.parse], statement by statement

    The same function with the list operations of the source: [path_stack]
    is a Python list with its top at the end, [lines[j]] and
    [path_stack[-1]] are index accesses that can raise. *)

(** [while path_stack and path_stack[-1][0] >= indent_level: path_stack.pop()],
    at most [n] tests of the condition. *)
Fixpoint pop_scopes_checked (n : nat) (path_stack : list (nat * pystr))
    (indent_level : nat) : M (list (nat * pystr)) :=
  match n with
  | 0 => Raise Diverges
  | S n' =>
      match path_stack with
      | [] => Ok path_stack
      | _ =>
          top ← getlast path_stack;
          if indent_level <=? top.1
          then path_stack' ← pop path_stack;
               pop_scopes_checked n' path_stack' indent_level
          else Ok path_stack
      end
  end.

(** [for j in range(i + 1, len(lines))], from [j] with [n] values left. *)
Fixpoint lookahead_checked (lines : list pystr) (indent_level j n : nat)
  : M bool :=
  match n with
  | 0 => Ok false
  | S n' =>
      l ← getitem lines j;
      match strip l with
      | [] => lookahead_checked lines indent_level (S j) n'
      | _ => Ok (indent_level <? indent l)
      end
  end.

(** [for i, line in enumerate(lines)], with [todo] the lines from [i] on. *)
Fixpoint parse_loop_checked (lines todo : list pystr) (i : nat)
    (result : list ParsedLine) (path_stack : list (nat * pystr))
  : M (list ParsedLine) :=
  match todo with
  | [] => Ok result
  | line :: todo' =>
      let stripped_line := strip line in
      match stripped_line with
      | [] => parse_loop_checked lines todo' (S i) result path_stack
      | _ =>
          let indent_level := indent line in
          path_stack ← pop_scopes_checked (S (length path_stack)) path_stack
                                          indent_level;
          let current_path := join DELIM (map snd path_stack) in
          is_parent ← lookahead_checked lines indent_level (S i)
                                        (length lines - S i);
          parse_loop_checked lines todo' (S i)
            (result ++ [{| p_string := stripped_line;
                           p_path := current_path;
                           p_is_parent := is_parent |}])
            (path_stack ++ [(indent_level, stripped_line)])
      end
  end.

Definition parse_checked (cfg : pystr) : M (list ParsedLine) :=
  let lines := splitlines cfg in
  parse_loop_checked lines lines 0 [] [].

(** ** Keys of the renderer *)

(** [DELIM.join([path, string] if path else [string])]: the key of a line in
    [path_scores], and the path of the lines directly under it. *)
Definition full_path (path string : pystr) : pystr :=
  join DELIM (match path with [] => [string] | _ => [path; string] end).

(** ** Tree of the renderer: [DiffRenderer._build_tree] *)

(** A value held in [self.tree]: a [dict], its entries in insertion order,
    or the [list] of records that a [dict] keeps under ["root_items"]. *)
Inductive Tree :=
| PyDict (entries : list (pystr * Tree))
| PyList (items : list DiffItem).

Definition ROOT_ITEMS : pystr := lit "root_items".

(** [d.get(k)] *)
Fixpoint dict_get (k : pystr) (entries : list (pystr * Tree)) : option Tree :=
  match entries with
  | [] => None
  | (k', v) :: rest =>
      if bool_decide (k' = k) then Some v else dict_get k rest
  end.

(** [d[k] = v]: in place when the key exists, at the end otherwise. *)
Fixpoint dict_set (k : pystr) (v : Tree) (entries : list (pystr * Tree))
  : list (pystr * Tree) :=
  match entries with
  | [] => [(k, v)]
  | (k', v') :: rest =>
      if bool_decide (k' = k) then (k', v) :: rest
      else (k', v') :: dict_set k v rest
  end.

(** [item["path"].split(DELIM)] under [if item["path"]] *)
Definition path_parts (path : pystr) : list pystr :=
  match path with
  | [] => []
  | _ => split_on DELIM_char path
  end.

(** [item["is_parent"] and not item["is_matched"]]: the records that
    [_build_tree] puts in no list. *)
Definition skipped (item : DiffItem) : bool :=
  r_is_parent item && negb (r_is_matched item).

(** The walk [node = node.setdefault(part, {})] along [parts], then
    [node.setdefault("root_items", []).append(item)] when an item is given.
    The result is the node the walk started from, after the update; a
    [list] has no [setdefault] and a [dict] has no [append]. *)
Fixpoint tree_insert (parts : list pystr) (item : option DiffItem)
    (node : Tree) : M Tree :=
  match parts with
  | part :: parts' =>
      match node with
      | PyList _ => Raise AttributeError
      | PyDict entries =>
          let child := default (PyDict []) (dict_get part entries) in
          child' ← tree_insert parts' item child;
          Ok (PyDict (dict_set part child' entries))
      end
  | [] =>
      match item with
      | None => Ok node
      | Some it =>
          match node with
          | PyList _ => Raise AttributeError
          | PyDict entries =>
              match default (PyList []) (dict_get ROOT_ITEMS entries) with
              | PyList items =>
                  Ok (PyDict (dict_set ROOT_ITEMS (PyList (items ++ [it]))
                                       entries))
              | PyDict _ => Raise AttributeError
              end
          end
      end
  end.

(** One iteration of [for item in self.differ.results.values()]. *)
Definition build_step (tree : Tree) (item : DiffItem) : M Tree :=
  tree_insert (path_parts (r_path item))
              (if skipped item then None else Some item) tree.

Fixpoint build_tree_from (results : list DiffItem) (tree : Tree) : M Tree :=
  match results with
  | [] => Ok tree
  | item :: rest =>
      tree' ← build_step tree item;
      build_tree_from rest tree'
  end.

(** [_build_tree()] on [self.tree = {}]: the tree it leaves. *)
Definition _build_tree (results : list DiffItem) : M Tree :=
  build_tree_from results (PyDict []).

(** The value reached from [node] by the keys [ks]. *)
Fixpoint subtree (ks : list pystr) (node : Tree) : option Tree :=
  match ks with
  | [] => Some node
  | k :: ks' =>
      match node with
      | PyDict entries => dict_get k entries ≫= subtree ks'
      | PyList _ => None
      end
  end.

(** The records listed directly in the section reached by the keys [ks]. *)
Definition items_at (ks : list pystr) (tree : Tree) : list DiffItem :=
  match subtree ks tree with
  | Some (PyDict entries) =>
      match dict_get ROOT_ITEMS entries with
      | Some (PyList items) => items
      | _ => []
      end
  | _ => []
  end.

(** Every value reached by keys other than ["root_items"] is a [dict], and
    what it keeps under ["root_items"] is a [list]. *)
Definition sound (node : Tree) : Prop :=
  ∀ ks, ROOT_ITEMS ∉ ks →
    match subtree ks node with
    | Some (PyDict entries) =>
        match dict_get ROOT_ITEMS entries with
        | Some (PyDict _) => False
        | _ => True
        end
    | Some (PyList _) => False
    | None => True
    end.

(** [self.tree.get("root_items")]: what the top level keeps under that key. *)
Definition root_entry (tree : Tree) : option Tree :=
  match tree with
  | PyDict entries => dict_get ROOT_ITEMS entries
  | PyList _ => None
  end.

(** ** Rendering of one record: [DiffRenderer._render_item] *)

(** The double quote of the markup. *)
Definition QUOTE : pystr := [34%N].

(** [f'<span class="diff-char">{ch}</span>'] *)
Definition diff_char (ch : char) : pystr :=
  lit "<span class=" ++ QUOTE ++ lit "diff-char" ++ QUOTE ++ lit ">"
  ++ [ch] ++ lit "</span>".

(** [_highlight_diff(text, diff_positions)] *)
Definition _highlight_diff (text : pystr) (diff_positions : list nat) : pystr :=
  match diff_positions with
  | [] => text
  | _ =>
      concat (imap (fun i ch => if bool_decide (i ∈ diff_positions)
                                then diff_char ch else [ch]) text)
  end.

(** [_render_simple_item(item, cls, icon)] *)
Definition _render_simple_item (item : DiffItem) (cls icon : pystr) : pystr :=
  lit "<div class=" ++ QUOTE ++ lit "item " ++ cls ++ QUOTE
  ++ lit " data-type=" ++ QUOTE ++ cls ++ QUOTE ++ lit ">"
  ++ lit "<i class=" ++ QUOTE ++ lit "fas fa-" ++ icon ++ QUOTE ++ lit "></i>"
  ++ r_string item
  ++ lit "</div>".

(** [_render_changed_item(item)] *)
Definition _render_changed_item (item : DiffItem) : pystr :=
  let left := _highlight_diff (r_string item) (r_diff_positions item) in
  let right := _highlight_diff (r_best_match item) (r_diff_positions item) in
  lit "<div class=" ++ QUOTE ++ lit "item is-changed" ++ QUOTE
  ++ lit " data-type=" ++ QUOTE ++ lit "is-changed" ++ QUOTE ++ lit ">"
  ++ lit "<i class=" ++ QUOTE ++ lit "fas fa-not-equal" ++ QUOTE ++ lit "></i>"
  ++ left
  ++ lit "<span class=" ++ QUOTE ++ lit "arrow" ++ QUOTE ++ lit "><i class="
  ++ QUOTE ++ lit "fas fa-arrow-right" ++ QUOTE ++ lit "></i></span>"
  ++ right
  ++ lit "</div>".

(** [_render_item(item)] *)
Definition _render_item (item : DiffItem) : pystr :=
  if r_is_added item
  then _render_simple_item item (lit "is-added") (lit "plus")
  else if negb (r_is_matched item)
  then _render_simple_item item (lit "is-removed") (lit "minus")
  else if flt (r_similarity_score item) F1_0
  then _render_changed_item item
  else if r_is_parent item then []
  else _render_simple_item item (lit "is-unchanged") (lit "equals").

(** The class that the summary of [handle_initial] counts for a
    disposition. *)
Definition item_class (d : Disposition) : pystr :=
  match d with
  | Unmatched_Removed => lit "is-removed"
  | Unmatched_Added => lit "is-added"
  | Matched_Identical => lit "is-unchanged"
  | Matched_Changed => lit "is-changed"
  end.

#[global] Instance Disposition_eq_dec : EqDecision Disposition.
Proof. solve_decision. Defined.

(** ** [ConfigDiffer.compare], statement by statement

    The same function with the operations of the source that can raise:
    the true divisions, the index accesses [a_tokens[0]] and [a[i]], and
    the two calls of the parser. *)

(** [a / b] on two [int]s *)
Definition truediv_checked (a b : nat) : M pyfloat :=
  match b with
  | 0 => Raise ZeroDivisionError
  | _ => Ok (truediv a b)
  end.

Definition left_prefix_similarity_checked (a b : pystr) : M pyfloat :=
  let a_tokens := split a in
  let b_tokens := split b in
  let max_len := max (length a_tokens) (length b_tokens) in
  if max_len =? 0 then Ok F0_0
  else
    let match_len := common_prefix_len a_tokens b_tokens in
    truediv_checked match_len max_len.

Definition token_jaccard_checked (a b : pystr) : M pyfloat :=
  let a_set := token_set a in
  let b_set := token_set b in
  if bool_decide (a_set = ∅) && bool_decide (b_set = ∅) then Ok F1_0
  else truediv_checked (size (a_set ∩ b_set)) (size (a_set ∪ b_set)).

(** [not a_tokens or not b_tokens or a_tokens[0] != b_tokens[0]] *)
Definition other_family_checked (a_tokens b_tokens : list pystr) : M bool :=
  if bool_decide (a_tokens = []) then Ok true
  else if bool_decide (b_tokens = []) then Ok true
  else
    a0 ← getitem a_tokens 0;
    b0 ← getitem b_tokens 0;
    Ok (bool_decide (a0 ≠ b0)).

Definition cisco_similarity_checked (a b : pystr) : M pyfloat :=
  let a_tokens := split a in
  let b_tokens := split b in
  reject ← other_family_checked a_tokens b_tokens;
  if reject : bool then Ok F0_0
  else if 4 <? abs_diff (length a_tokens) (length b_tokens) then Ok F0_0
  else
    prefix_score ← left_prefix_similarity_checked a b;
    token_score ← token_jaccard_checked a b;
    Ok (fadd (fmul F0_7 prefix_score) (fmul F0_3 token_score)).

Fixpoint best_candidate_checked (base_string : pystr) (base_is_parent : bool)
    (cands : list Candidate) (best_match : option Candidate)
    (best_score : pyfloat) : M (option Candidate * pyfloat) :=
  match cands with
  | [] => Ok (best_match, best_score)
  | candidate :: rest =>
      let target_string := p_string candidate.2 in
      if base_is_parent then
        if bool_decide (base_string = target_string)
        then Ok (Some candidate, F1_0)
        else best_candidate_checked base_string base_is_parent rest
                                    best_match best_score
      else
        score ← cisco_similarity_checked base_string target_string;
        if flt best_score score
        then best_candidate_checked base_string base_is_parent rest
                                    (Some candidate) score
        else best_candidate_checked base_string base_is_parent rest
                                    best_match best_score
  end.

(** [[i for i in range(min_len) if a[i] != b[i]]], over the indices [is]. *)
Fixpoint differing_checked (a b : pystr) (indices : list nat) : M (list nat) :=
  match indices with
  | [] => Ok []
  | i :: rest =>
      x ← getitem a i;
      y ← getitem b i;
      found ← differing_checked a b rest;
      Ok (if bool_decide (x ≠ y) then i :: found else found)
  end.

Definition diff_positions_checked (a b : pystr) : M (list nat) :=
  let min_len := min (length a) (length b) in
  found ← differing_checked a b (seq 0 min_len);
  Ok (found ++ seq min_len (max (length a) (length b) - min_len)).

Definition compare_line_checked (target_parsed : list ParsedLine)
    (used_target_lines : gset nat) (base_item : ParsedLine)
  : M (DiffItem * gset nat) :=
  let base_string := p_string base_item in
  let base_path := p_path base_item in
  let base_is_parent := p_is_parent base_item in
  let cands := candidates target_parsed base_path used_target_lines in
  found ← best_candidate_checked base_string base_is_parent cands None Fm1_0;
  let best_score := found.2 in
  match found.1 with
  | Some best_match =>
      if fle F0_6 best_score then
        let b := p_string best_match.2 in
        positions ← diff_positions_checked base_string b;
        Ok ({| r_string := base_string;
               r_best_match := b;
               r_is_parent := base_is_parent;
               r_similarity_score := best_score;
               r_is_matched := true;
               r_diff_positions := positions;
               r_path := base_path;
               r_is_added := false |},
            {[ best_match.1 ]} ∪ used_target_lines)
      else
        Ok ({| r_string := base_string;
               r_best_match := [];
               r_is_parent := base_is_parent;
               r_similarity_score := best_score;
               r_is_matched := false;
               r_diff_positions := seq 0 (length base_string);
               r_path := base_path;
               r_is_added := false |},
            used_target_lines)
  | None =>
      Ok ({| r_string := base_string;
             r_best_match := [];
             r_is_parent := base_is_parent;
             r_similarity_score := best_score;
             r_is_matched := false;
             r_diff_positions := seq 0 (length base_string);
             r_path := base_path;
             r_is_added := false |},
          used_target_lines)
  end.

Fixpoint compare_base_checked (target_parsed base_items : list ParsedLine)
    (used_target_lines : gset nat) : M (list DiffItem * gset nat) :=
  match base_items with
  | [] => Ok ([], used_target_lines)
  | base_item :: rest =>
      step ← compare_line_checked target_parsed used_target_lines base_item;
      more ← compare_base_checked target_parsed rest step.2;
      Ok (step.1 :: more.1, more.2)
  end.

(** [ConfigDiffer(target_cfg, base_cfg).compare()], then [self.results]. *)
Definition compare_checked (target_cfg base_cfg : pystr) : M (list DiffItem) :=
  target_parsed ← parse_checked target_cfg;
  base_parsed ← parse_checked base_cfg;
  found ← compare_base_checked target_parsed base_parsed ∅;
  Ok (found.1 ++ added_items target_parsed found.2).

(** * Properties *)

(** ** The matcher, line by line *)

Section Matcher.

Implicit Types (t b : list ParsedLine) (u : gset nat) (c : Candidate).

Lemma elem_of_candidates t p u c :
  c ∈ candidates t p u ↔ t !! c.1 = Some c.2 ∧ p_path c.2 = p ∧ c.1 ∉ u.
Proof.
  unfold candidates. rewrite list_elem_of_filter, elem_of_lookup_imap.
  split.
  - intros [[Hp Hu] (i & y & -> & Hi)]. simpl in *. done.
  - intros (Hl & Hp & Hu). split; [done|].
    exists c.1, c.2. by destruct c.
Qed.


Lemma best_candidate_elem s par cs bm bs c sc :
  best_candidate s par cs bm bs = (Some c, sc) → c ∈ cs ∨ bm = Some c.
Proof.
  revert bm bs. induction cs as [|x cs IH]; intros bm bs; simpl.
  - intros [= -> _]. by right.
  - destruct par.
    + case_bool_decide.
      * intros [= -> _]. left. by left.
      * intros H'. destruct (IH _ _ H'); [left; by right | by right].
    + destruct (flt bs _).
      * intros H'. destruct (IH _ _ H') as [|[= ->]]; left; [by right | by left].
      * intros H'. destruct (IH _ _ H'); [left; by right | by right].
Qed.

Lemma accepted_elem t u base_item c :
  accepted t u base_item = Some c → c ∈ candidates t (p_path base_item) u.
Proof.
  unfold accepted, search.
  destruct (best_candidate _ _ _ _ _) as [[c'|] sc] eqn:E; [|done].
  destruct (fle _ _); [|done]. intros [= ->].
  by destruct (best_candidate_elem _ _ _ _ _ _ _ E).
Qed.

Lemma compare_base_app t b1 b2 u :
  compare_base t (b1 ++ b2) u =
    ((compare_base t b1 u).1 ++ (compare_base t b2 (compare_base t b1 u).2).1,
     (compare_base t b2 (compare_base t b1 u).2).2).
Proof.
  revert u. induction b1 as [|x b1 IH]; intros u; simpl.
  - by destruct (compare_base t b2 u).
  - destruct (compare_line t u x) as [r u1]. rewrite IH.
    destruct (compare_base t b1 u1) as [rs u2]. simpl.
    by destruct (compare_base t b2 u2).
Qed.

Lemma compare_base_length t b u : length (compare_base t b u).1 = length b.
Proof.
  revert u. induction b as [|x b IH]; intros u; simpl; [done|].
  destruct (compare_line t u x) as [r u1]. specialize (IH u1).
  destruct (compare_base t b u1). simpl in *. by rewrite IH.
Qed.

Lemma compare_base_lookup t b u k base_item :
  b !! k = Some base_item →
  (compare_base t b u).1 !! k
  = Some (compare_line t (compare_base t (take k b) u).2 base_item).1.
Proof.
  intros Hk. rewrite <- (take_drop_middle b k base_item Hk) at 1.
  rewrite compare_base_app. simpl.
  destruct (compare_line t _ base_item) as [r u1] eqn:E.
  destruct (compare_base t (drop (S k) b) u1). simpl.
  rewrite lookup_app_r; rewrite compare_base_length, length_take.
  - apply lookup_lt_Some in Hk. by replace (k - k `min` length b) with 0 by lia.
  - lia.
Qed.

Lemma consumed_length t b u : length (consumed t b u) = length b.
Proof. revert u. induction b as [|x b IH]; intros u; simpl; by rewrite ?IH. Qed.

Lemma compare_line_used t u base_item :
  (compare_line t u base_item).2
  = match accepted t u base_item with
    | Some c => {[ c.1 ]} ∪ u
    | None => u
    end.
Proof. unfold compare_line. by destruct (accepted t u base_item). Qed.

Lemma consumed_app t b1 b2 u :
  consumed t (b1 ++ b2) u
  = consumed t b1 u ++ consumed t b2 (compare_base t b1 u).2.
Proof.
  revert u. induction b1 as [|x b1 IH]; intros u; simpl; [done|].
  rewrite IH. f_equal. f_equal.
  pose proof (compare_line_used t u x) as Hu.
  destruct (compare_line t u x) as [r u1]. simpl in Hu. rewrite <- Hu.
  by destruct (compare_base t b1 u1).
Qed.

Lemma consumed_lookup t b u k base_item :
  b !! k = Some base_item →
  consumed t b u !! k
  = Some (fst <$> accepted t (compare_base t (take k b) u).2 base_item).
Proof.
  intros Hk. rewrite <- (take_drop_middle b k base_item Hk) at 1.
  rewrite consumed_app. simpl.
  rewrite lookup_app_r; rewrite consumed_length, length_take.
  - apply lookup_lt_Some in Hk. by replace (k - k `min` length b) with 0 by lia.
  - lia.
Qed.

End Matcher.

(** ** Parent lines (C5) *)

Section Parents.

Implicit Types (t b : list ParsedLine) (u : gset nat) (c : Candidate).

Lemma best_candidate_parent s cs bm bs :
  best_candidate s true cs bm bs
  = match list_find (fun c : Candidate => p_string c.2 = s) cs with
    | Some (_, c) => (Some c, F1_0)
    | None => (bm, bs)
    end.
Proof.
  induction cs as [|x cs IH]; simpl; [done|].
  rewrite IH. case_bool_decide as Hx; case_decide as Hy; try congruence.
  by destruct (list_find _ cs) as [[? ?]|].
Qed.

Lemma search_parent t u base_item :
  p_is_parent base_item = true →
  search t u base_item
  = match list_find (fun c : Candidate => p_string c.2 = p_string base_item)
            (candidates t (p_path base_item) u) with
    | Some (_, c) => (Some c, F1_0)
    | None => (None, Fm1_0)
    end.
Proof. intros Hp. unfold search. rewrite Hp. apply best_candidate_parent. Qed.

Lemma accepted_parent t u base_item :
  p_is_parent base_item = true →
  match list_find (fun c : Candidate => p_string c.2 = p_string base_item)
          (candidates t (p_path base_item) u) with
  | Some (_, c) =>
      accepted t u base_item = Some c ∧ (search t u base_item).2 = F1_0
  | None =>
      accepted t u base_item = None ∧ (search t u base_item).2 = Fm1_0
  end.
Proof.
  intros Hp. unfold accepted. rewrite (search_parent _ _ _ Hp).
  by destruct (list_find _ _) as [[i c]|].
Qed.

Lemma compare_parsed_lookup t b k base_item :
  b !! k = Some base_item →
  compare_parsed t b !! k = Some (compare_line t (used_before t b k) base_item).1.
Proof.
  intros Hk. unfold compare_parsed, used_before.
  pose proof (compare_base_lookup t b ∅ k base_item Hk) as Hl.
  pose proof (compare_base_length t b ∅) as Hn.
  destruct (compare_base t b ∅) as [rs used]. simpl in *.
  rewrite lookup_app_l; [done|]. apply lookup_lt_Some in Hk. lia.
Qed.

End Parents.


(** ** Where a record comes from *)

Section Origin.

Implicit Types (t b : list ParsedLine) (u : gset nat) (c : Candidate).

Lemma compare_parsed_eq t b :
  compare_parsed t b = (compare_base t b ∅).1 ++ added_items t (used_final t b).
Proof. unfold compare_parsed, used_final. by destruct (compare_base t b ∅). Qed.

Lemma elem_of_compare_parsed t b r :
  r ∈ compare_parsed t b ↔
    (∃ k base_item, b !! k = Some base_item ∧
       r = (compare_line t (used_before t b k) base_item).1)
    ∨ (∃ c, c ∈ unused t (used_final t b) ∧ r = added_item c.2).
Proof.
  rewrite compare_parsed_eq, elem_of_app. unfold added_items.
  rewrite list_elem_of_fmap. split.
  - intros [Hr|(c & -> & Hc)]; [left | right; eauto].
    apply list_elem_of_lookup in Hr as [k Hk].
    pose proof (lookup_lt_Some _ _ _ Hk) as Hlt.
    rewrite compare_base_length in Hlt.
    destruct (lookup_lt_is_Some_2 b k Hlt) as [base_item Hb].
    exists k, base_item. split; [done|].
    rewrite (compare_base_lookup _ _ _ _ _ Hb) in Hk. by injection Hk.
  - intros [(k & base_item & Hb & ->)|(c & Hc & ->)]; [left | right; eauto].
    apply list_elem_of_lookup. exists k. by apply compare_base_lookup.
Qed.

End Origin.

(** ** Difference spans (C8) *)

Lemma elem_of_diff_positions (a b : pystr) (i : nat) :
  i ∈ diff_positions a b ↔
    (i < min (length a) (length b) ∧ a !! i ≠ b !! i)
    ∨ (min (length a) (length b) ≤ i < max (length a) (length b)).
Proof.
  unfold diff_positions.
  rewrite elem_of_app, list_elem_of_filter, !elem_of_seq. split.
  - intros [[Hd Hi]|Hi]; [left | right]; [split; [lia|done] | lia].
  - intros [[Hi Hd]|Hi]; [left | right]; [split; [done|lia] | lia].
Qed.

(** C8: the span of a matched record holds the positions below the shorter
    length where the two texts differ and every position from the shorter to
    the longer length; every position of a span is below the longer length;
    the span of an unmatched record is every index of its text. *)
Theorem diff_span_characterised (target_cfg base_cfg : pystr) (r : DiffItem) :
  r ∈ compare target_cfg base_cfg →
  let a := r_string r in
  let b := r_best_match r in
  (r_is_matched r = true →
     ∀ i, i ∈ r_diff_positions r ↔
       (i < min (length a) (length b) ∧ a !! i ≠ b !! i)
       ∨ (min (length a) (length b) ≤ i < max (length a) (length b)))
  ∧ (∀ i, i ∈ r_diff_positions r → i < max (length a) (length b))
  ∧ (r_is_matched r = false → r_diff_positions r = seq 0 (length a)).
Proof.
  unfold compare. rewrite elem_of_compare_parsed.
  intros [(k & base_item & _ & ->)|(c & _ & ->)]; simpl.
  - unfold compare_line. destruct (accepted _ _ _) as [c|]; simpl.
    + split_and!; [intros _ i; apply elem_of_diff_positions| |done].
      intros i Hi. apply elem_of_diff_positions in Hi. lia.
    + split_and!; [done| |done]. intros i Hi. apply elem_of_seq in Hi. lia.
  - split_and!; [done| |done]. intros i Hi. apply elem_of_seq in Hi. lia.
Qed.

Lemma diff_span_characterised_witness :
  let r := {| r_string := lit "a b"; r_best_match := lit "a  b";
              r_is_parent := false; r_similarity_score := F1_0;
              r_is_matched := true; r_diff_positions := [2; 3];
              r_path := []; r_is_added := false |} in
  r ∈ compare (lit "a  b") (lit "a b")
  ∧ 2 < max (length (r_string r)) (length (r_best_match r)).
Proof.
  intros r.
  assert (Hr : r ∈ compare (lit "a  b") (lit "a b"))
    by (vm_compute; apply list_elem_of_here).
  split; [exact Hr|].
  apply (proj1 (proj2 (diff_span_characterised (lit "a  b") (lit "a b") r Hr)) 2).
  apply list_elem_of_here.
Defined.

(** ** The consumed target lines *)

Section Coverage.

Implicit Types (t b : list ParsedLine) (u : gset nat) (c : Candidate).

Lemma elem_of_used t b u j :
  j ∈ (compare_base t b u).2 ↔ j ∈ u ∨ Some j ∈ consumed t b u.
Proof.
  revert u. induction b as [|x b IH]; intros u; simpl.
  - rewrite elem_of_nil. tauto.
  - pose proof (compare_line_used t u x) as Hu.
    destruct (compare_line t u x) as [r u1]. simpl in Hu. subst u1.
    specialize (IH (match accepted t u x with
                    | Some c => {[ c.1 ]} ∪ u | None => u end)).
    destruct (compare_base t b _) as [rs u2]. simpl in *.
    rewrite IH, elem_of_cons. destruct (accepted t u x) as [c|]; simpl.
    + rewrite elem_of_union, elem_of_singleton. split.
      * intros [[->|?]|?]; auto.
      * intros [?|[[= ->]|?]]; auto.
    + split; [intros [?|?]; auto|]. intros [?|[?|?]]; auto. done.
Qed.

Lemma consumed_fresh t b u j : Some j ∈ consumed t b u → j ∉ u.
Proof.
  revert u. induction b as [|x b IH]; intros u; simpl.
  - by rewrite elem_of_nil.
  - rewrite elem_of_cons. intros [Hj|Hj].
    + destruct (accepted t u x) as [c|] eqn:E; [|done].
      injection Hj as ->. apply accepted_elem, elem_of_candidates in E. tauto.
    + apply IH in Hj. destruct (accepted t u x); set_solver.
Qed.

Lemma consumed_inj t b u k k' j :
  consumed t b u !! k = Some (Some j) →
  consumed t b u !! k' = Some (Some j) → k = k'.
Proof.
  revert u k k'. induction b as [|x b IH]; intros u k k'; simpl; [done|].
  assert (∀ n, (fst <$> accepted t u x) = Some j →
               consumed t b (match accepted t u x with
                             | Some c => {[ c.1 ]} ∪ u | None => u end)
                 !! n = Some (Some j) → False) as Hno.
  { intros n Hx Hn. apply list_elem_of_lookup_2, consumed_fresh in Hn.
    destruct (accepted t u x) as [c|]; [|done]. injection Hx as <-.
    set_solver. }
  destruct k as [|k], k' as [|k']; simpl; try done.
  - intros [= Hx] Hn. by destruct (Hno _ Hx Hn).
  - intros Hn [= Hx]. by destruct (Hno _ Hx Hn).
  - intros H1 H2. f_equal. eauto.
Qed.

Lemma consumed_in_range t b u k j :
  consumed t b u !! k = Some (Some j) → is_Some (t !! j).
Proof.
  intros Hk. pose proof (lookup_lt_Some _ _ _ Hk) as Hlt.
  rewrite consumed_length in Hlt.
  destruct (lookup_lt_is_Some_2 b k Hlt) as [base_item Hb].
  rewrite (consumed_lookup _ _ _ _ _ Hb) in Hk. injection Hk as Hk.
  destruct (accepted _ _ _) as [c|] eqn:E; [|done]. injection Hk as <-.
  apply accepted_elem, elem_of_candidates in E. naive_solver.
Qed.

Lemma compare_line_fields t u base_item :
  let r := (compare_line t u base_item).1 in
  r_string r = p_string base_item ∧ r_path r = p_path base_item ∧
  r_is_parent r = p_is_parent base_item ∧ r_is_added r = false ∧
  match accepted t u base_item with
  | Some c => t !! c.1 = Some c.2 ∧ p_path c.2 = p_path base_item ∧
              r_is_matched r = true ∧ r_best_match r = p_string c.2
  | None => r_is_matched r = false ∧ r_best_match r = []
  end.
Proof.
  unfold compare_line. destruct (accepted t u base_item) as [c|] eqn:E; simpl.
  - apply accepted_elem, elem_of_candidates in E. naive_solver.
  - done.
Qed.

End Coverage.

(** ** The candidates of a base line, by position in the target *)

Lemma consumed_take (t b : list ParsedLine) (k : nat) :
  consumed t (take k b) ∅ = take k (consumed t b ∅).
Proof.
  destruct (decide (k ≤ length b)) as [Hk|Hk].
  - rewrite <- (take_drop k b) at 2. rewrite consumed_app.
    rewrite take_app_length'; [done|].
    rewrite consumed_length, length_take. lia.
  - rewrite !take_ge; [done| |lia]. rewrite consumed_length. lia.
Qed.

Lemma elem_of_used_before (t b : list ParsedLine) (k j : nat) :
  j ∈ used_before t b k
  ↔ ∃ k', k' < k ∧ consumed t b ∅ !! k' = Some (Some j).
Proof.
  unfold used_before. rewrite elem_of_used, consumed_take.
  rewrite list_elem_of_lookup. split.
  - intros [?%elem_of_empty|[k' Hk']]; [done|].
    apply lookup_take_Some in Hk' as [? ?]. eauto.
  - intros (k' & Hlt & Hk'). right. exists k'.
    by apply lookup_take_Some.
Qed.

Lemma filter_imap_order {A} (P : nat * A → Prop) `{!∀ x, Decision (P x)}
    (t : list A) (n : nat) (pre post : list (nat * A)) (c : nat * A) :
  filter P (imap (fun i x => (n + i, x)) t) = pre ++ c :: post →
  (∀ c', c' ∈ pre → c'.1 < c.1) ∧ n ≤ c.1 ∧ (∀ c', c' ∈ post → c.1 < c'.1).
Proof.
  revert n pre. induction t as [|x t IH]; intros n pre.
  - simpl. by destruct pre.
  - rewrite imap_cons.
    rewrite (imap_ext _ (fun i y => (S n + i, y)))
      by (intros i y _; simpl; f_equal; lia).
    rewrite filter_cons. replace (n + 0) with n by lia.
    destruct (decide (P (n, x))) as [HP|HP].
    + destruct pre as [|p pre]; simpl.
      * intros [= <- Hpost]. split; [by intros c' ?%elem_of_nil|].
        split; [done|]. intros c' Hc'. simpl.
        rewrite <- Hpost in Hc'.
        apply list_elem_of_filter in Hc' as [_ Hc'].
        apply elem_of_lookup_imap in Hc' as (i & y & -> & _). simpl. lia.
      * intros [= <- Hrest]. destruct (IH (S n) _ Hrest) as (H1 & H2 & H3).
        split; [|split; [lia|done]].
        intros c' [->|Hc']%elem_of_cons; [simpl; lia|auto].
    + intros Hrest. destruct (IH (S n) _ Hrest) as (H1 & H2 & H3).
      split; [done|]. split; [lia|done].
Qed.

Lemma candidates_order (t : list ParsedLine) (p : pystr) (u : gset nat)
    (pre post : list Candidate) (c : Candidate) :
  candidates t p u = pre ++ c :: post →
  (∀ c', c' ∈ pre → c'.1 < c.1) ∧ (∀ c', c' ∈ post → c.1 < c'.1).
Proof.
  unfold candidates. intros H.
  destruct (filter_imap_order _ t 0 pre post c H) as (H1 & _ & H3). done.
Qed.

(** The candidates of base line [k], told without the list: target line
    [j] with content [y] is one when it has the path of the base line and
    no earlier base line consumed it. *)
Lemma elem_of_candidates_before (t b : list ParsedLine) (k : nat)
    (p : pystr) (c : Candidate) :
  c ∈ candidates t p (used_before t b k)
  ↔ t !! c.1 = Some c.2 ∧ p_path c.2 = p
    ∧ ∀ k', k' < k → consumed t b ∅ !! k' ≠ Some (Some c.1).
Proof.
  rewrite elem_of_candidates, elem_of_used_before. split.
  - intros (? & ? & Hu). split_and!; [done..|]. intros k' ? ?. apply Hu. eauto.
  - intros (? & ? & Hu). split_and!; [done..|].
    intros (k' & ? & ?). by eapply Hu.
Qed.

(** C5: a base line that is a parent is matched only by a target line with
    exactly its text: one that has the path of the base line and that no
    earlier base line has consumed. The first such line in target order is
    consumed, with score 1.0; when there is none the parent stays unmatched,
    whatever the similarity of the other target lines. The pairing [m] gives,
    for each base line, the target position it consumed. *)
Theorem parent_exact_match_only (target_cfg base_cfg : pystr) (k : nat)
    (base_item : ParsedLine) :
  parse base_cfg !! k = Some base_item →
  p_is_parent base_item = true →
  let t := parse target_cfg in
  let b := parse base_cfg in
  let m := consumed t b ∅ in
  let exact := fun j : nat =>
    ∃ y, t !! j = Some y
         ∧ p_path y = p_path base_item
         ∧ p_string y = p_string base_item
         ∧ ∀ k', k' < k → m !! k' ≠ Some (Some j) in
  ∃ r, compare target_cfg base_cfg !! k = Some r ∧
    match m !! k with
    | Some (Some j) =>
        exact j ∧ (∀ j', j' < j → ¬ exact j')
        ∧ r_is_matched r = true
        ∧ r_best_match r = p_string base_item
        ∧ r_similarity_score r = F1_0
    | o =>
        o = Some None ∧ (∀ j, ¬ exact j)
        ∧ r_is_matched r = false
        ∧ r_best_match r = []
    end.
Proof.
  intros Hk Hp. cbv zeta.
  eexists. split; [by apply compare_parsed_lookup|].
  rewrite (consumed_lookup _ _ _ _ _ Hk).
  set (t := parse target_cfg). set (b := parse base_cfg) in *.
  change (compare_base t (take k b) ∅).2 with (used_before t b k).
  pose proof (accepted_parent t (used_before t b k) base_item Hp) as H.
  unfold compare_line.
  destruct (list_find _ _) as [[i c]|] eqn:E; destruct H as [-> ->]; simpl.
  - apply list_find_Some in E as (Hi & Hc & Hmin).
    pose proof (list_elem_of_lookup_2 _ _ _ Hi) as Hin.
    apply elem_of_candidates_before in Hin as (Ht & Hpath & Hfree).
    split_and!; [by exists c.2| |done|by rewrite Hc|done].
    intros j' Hlt (y & Hy & Hyp & Hys & Hyf).
    assert ((j', y) ∈ candidates t (p_path base_item) (used_before t b k))
      as Hin' by (by apply elem_of_candidates_before).
    pose proof (take_drop_middle _ _ _ Hi) as Hsplit. symmetry in Hsplit.
    destruct (candidates_order _ _ _ _ _ _ Hsplit) as [_ Hpost].
    rewrite Hsplit in Hin'.
    apply elem_of_app in Hin' as [Hin'|[<-|Hin']%elem_of_cons].
    + apply list_elem_of_lookup in Hin' as [i' Hi'].
      apply lookup_take_Some in Hi' as [Hi' Hlt'].
      exact (Hmin i' (j', y) Hi' Hlt' Hys).
    + simpl in Hlt. lia.
    + apply Hpost in Hin'. simpl in Hin'. lia.
  - split_and!; [done| |done..].
    intros j (y & Hy & Hyp & Hys & Hyf).
    apply list_find_None in E.
    assert ((j, y) ∈ candidates t (p_path base_item) (used_before t b k))
      as Hin' by (by apply elem_of_candidates_before).
    by apply (proj1 (Forall_forall _ _) E _ Hin').
Qed.

Lemma parent_exact_match_only_witness :
  let target_cfg := lit "interface Eth1/1
  description foo" in
  let base_cfg := lit "interface Eth1/1
  description bar" in
  ∃ r, compare target_cfg base_cfg !! 0 = Some r ∧
       r_is_matched r = true ∧ r_similarity_score r = F1_0.
Proof.
  intros target_cfg base_cfg.
  destruct (parent_exact_match_only target_cfg base_cfg 0
              {| p_string := lit "interface Eth1/1"; p_path := [];
                 p_is_parent := true |} eq_refl eq_refl) as (r & Hr & H).
  exists r. split; [exact Hr|].
  change (consumed (parse target_cfg) (parse base_cfg) ∅ !! 0)
    with (Some (Some 0)) in H.
  destruct H as (_ & _ & H1 & _ & H2). by split.
Defined.

(** ** The records of the result (C1) *)

Lemma NoDup_imap_pair {A} (t : list A) : NoDup (imap pair t).
Proof.
  apply NoDup_alt. intros i j [a x] Hi Hj.
  apply list_lookup_imap_Some in Hi as (x1 & _ & [= -> _]).
  apply list_lookup_imap_Some in Hj as (x2 & _ & [= -> _]). done.
Qed.

(** C1: the result is one record per parsed base line, in base order,
    followed by one added record per parsed target line that no base line
    consumed, in target order. A base record carries the text, path and
    parent flag of its line and, when its line consumed a target line, the
    text of that line; no two base lines consume the same target line. An
    added record carries the text, path and parent flag of its target line
    and is classified Unmatched-Added. Every parsed target line is either
    consumed, and then gives no added record, or gives exactly one. *)
Theorem coverage (target_cfg base_cfg : pystr) :
  let t := parse target_cfg in
  let b := parse base_cfg in
  let m := consumed t b ∅ in
  let unconsumed :=
    filter (fun c : nat * ParsedLine => Some c.1 ∉ m) (imap pair t) in
  ∃ base_records added_records : list DiffItem,
    compare target_cfg base_cfg = base_records ++ added_records
    ∧ length base_records = length b
    ∧ length m = length b
    ∧ (∀ k base_item, b !! k = Some base_item →
         ∃ r, base_records !! k = Some r
              ∧ r_string r = p_string base_item
              ∧ r_path r = p_path base_item
              ∧ r_is_parent r = p_is_parent base_item
              ∧ r_is_added r = false
              ∧ match m !! k with
                | Some (Some j) =>
                    ∃ target_item, t !! j = Some target_item
                      ∧ p_path target_item = p_path base_item
                      ∧ r_is_matched r = true
                      ∧ r_best_match r = p_string target_item
                | _ => r_is_matched r = false ∧ r_best_match r = []
                end)
    ∧ (∀ k k' j, m !! k = Some (Some j) → m !! k' = Some (Some j) → k = k')
    ∧ (∀ k j, m !! k = Some (Some j) → is_Some (t !! j))
    ∧ length added_records = length unconsumed
    ∧ (∀ i j target_item, unconsumed !! i = Some (j, target_item) →
         ∃ r, added_records !! i = Some r
              ∧ r_string r = p_string target_item
              ∧ r_path r = p_path target_item
              ∧ r_is_parent r = p_is_parent target_item
              ∧ r_is_added r = true
              ∧ r_is_matched r = false
              ∧ r_best_match r = []
              ∧ disposition r = Unmatched_Added)
    ∧ (∀ j target_item, t !! j = Some target_item →
         if decide (Some j ∈ m)
         then ∀ i, unconsumed !! i ≠ Some (j, target_item)
         else ∃ i, unconsumed !! i = Some (j, target_item)
                   ∧ ∀ i', unconsumed !! i' = Some (j, target_item) → i' = i).
Proof.
  intros t b m unconsumed.
  exists (compare_base t b ∅).1, (added_item <$> (snd <$> unconsumed)).
  assert (unused t (used_final t b) = unconsumed) as Hun.
  { unfold unused, unconsumed, used_final. apply list_filter_iff.
    intros c. unfold m. rewrite elem_of_used. set_solver. }
  split_and!.
  - unfold compare. fold t b. rewrite compare_parsed_eq. f_equal.
    unfold added_items. rewrite Hun.
    change (map ?f ?l) with (f <$> l). by rewrite <- list_fmap_compose.
  - apply compare_base_length.
  - apply consumed_length.
  - intros k base_item Hk. eexists. split; [by apply compare_base_lookup|].
    unfold m. rewrite (consumed_lookup _ _ _ _ _ Hk).
    pose proof (compare_line_fields t (compare_base t (take k b) ∅).2 base_item) as H.
    simpl in H. destruct H as (? & ? & ? & ? & H). split_and!; try done.
    destruct (accepted _ _ _) as [c|]; simpl; [|done].
    exists c.2. tauto.
  - apply consumed_inj.
  - apply consumed_in_range.
  - by rewrite !length_fmap.
  - intros i j target_item Hi. exists (added_item target_item).
    split; [|done]. by rewrite !list_lookup_fmap, Hi.
  - intros j target_item Hj. destruct (decide (Some j ∈ m)) as [Hin|Hin].
    + intros i Hi%list_elem_of_lookup_2.
      apply list_elem_of_filter in Hi as [Hi _]. done.
    + assert ((j, target_item) ∈ unconsumed) as Hel.
      { apply list_elem_of_filter. split; [done|].
        apply elem_of_lookup_imap. by exists j, target_item. }
      apply list_elem_of_lookup in Hel as [i Hi]. exists i. split; [done|].
      intros i' Hi'.
      assert (NoDup unconsumed) as Hnd
        by apply NoDup_filter, NoDup_imap_pair.
      by apply (NoDup_lookup _ _ _ _ Hnd Hi' Hi).
Qed.


(** ** The BGP neighbour scenario (C9) *)

(** C9: with base [router bgp 65000] / [neighbor 10.0.0.1 remote-as 65001]
    and target [router bgp 65000] / [neighbor 10.0.0.1 remote-as 65002], the
    child scores 0.7 * (3/4) + 0.3 * (3/5), which is at least 0.6 and below
    1.0; the parent record is Matched-Identical and the child record is
    Matched-Changed. *)
Theorem scenario_bgp_neighbor_changed :
  let base_cfg := lit "router bgp 65000
  neighbor 10.0.0.1 remote-as 65001" in
  let target_cfg := lit "router bgp 65000
  neighbor 10.0.0.1 remote-as 65002" in
  let base_child := lit "neighbor 10.0.0.1 remote-as 65001" in
  let target_child := lit "neighbor 10.0.0.1 remote-as 65002" in
  left_prefix_similarity base_child target_child = truediv 3 4
  ∧ token_jaccard base_child target_child = truediv 3 5
  ∧ cisco_similarity base_child target_child
    = fadd (fmul F0_7 (truediv 3 4)) (fmul F0_3 (truediv 3 5))
  ∧ fle F0_6 (cisco_similarity base_child target_child) = true
  ∧ flt (cisco_similarity base_child target_child) F1_0 = true
  ∧ (fun r => (r_string r, r_best_match r, disposition r))
      <$> compare target_cfg base_cfg
    = [ (lit "router bgp 65000", lit "router bgp 65000", Matched_Identical);
        (base_child, target_child, Matched_Changed) ].
Proof. vm_compute. by repeat split. Qed.

(** ** Facts on floats *)

Lemma div_core_self (p : positive) :
  SFdiv_core_binary prec emax (Zpos p) 0 (Zpos p) 0
  = (9007199254740992%Z, (-53)%Z, loc_Exact).
Proof.
  unfold SFdiv_core_binary.
  replace (Zdigits2 (Z.pos p) + 0 - (Zdigits2 (Z.pos p) + 0))%Z with 0%Z by lia.
  change (Z.min (fexp prec emax 0) (0 - 0)) with (-53)%Z.
  change (0 - 0 - -53)%Z with 53%Z. cbv iota beta.
  rewrite Z.shiftl_mul_pow2 by lia.
  pose proof (Z.div_mul (2 ^ 53) (Z.pos p) ltac:(lia)) as Hq.
  pose proof (Z.mod_mul (2 ^ 53) (Z.pos p) ltac:(lia)) as Hr.
  unfold Z.div, Z.modulo in Hq, Hr. rewrite (Z.mul_comm (2 ^ 53)) in Hq, Hr.
  destruct (Z.div_eucl (Z.pos p * 2 ^ 53) (Z.pos p)) as [q r].
  simpl in Hq, Hr. subst q r.
  unfold new_location, new_location_even, new_location_odd. simpl.
  by destruct p.
Qed.

Lemma truediv_self (n : nat) : 0 < n → truediv n n = F1_0.
Proof.
  intros Hn. unfold truediv.
  destruct (Z.of_nat n) as [|p|p] eqn:E; [lia| |lia]. simpl.
  rewrite div_core_self. reflexivity.
Qed.

(** The order of [SFcompare] away from NaN. *)

Ltac float_order :=
  unfold flt, fle, SFltb, SFleb, SFcompare;
  repeat match goal with
         | x : pyfloat |- _ => destruct x as [[]|[]| |[] ? ?]
         | x : spec_float |- _ => destruct x as [[]|[]| |[] ? ?]
         end;
  simpl; try done;
  change (Pos.compare_cont Eq) with Pos.compare;
  repeat match goal with
         | |- context [(?a ?= ?b)%Z] => destruct (Z.compare_spec a b)
         | |- context [(?a ?= ?b)%positive] => destruct (Pos.compare_spec a b)
         end;
  simpl; try done; try lia.

Lemma flt_trans (x y z : pyfloat) :
  flt x y = true → flt y z = true → flt x z = true.
Proof. float_order. Qed.

Lemma flt_cotrans (x y z : pyfloat) :
  is_nan y = false → flt x z = true → flt x y = true ∨ flt y z = true.
Proof. float_order; intros; (by left) || (by right) || lia. Qed.

Lemma flt_irrefl (x : pyfloat) : flt x x = false.
Proof. float_order. Qed.

Lemma fle_false_flt (x y : pyfloat) :
  is_nan x = false → is_nan y = false → fle x y = false → flt y x = true.
Proof. float_order. Qed.

Lemma flt_fle_false (x y : pyfloat) : flt y x = true → fle x y = false.
Proof. float_order. Qed.

(** Scores are zero, positive or plus infinity: never NaN, never negative. *)

Lemma shr_1_nonneg (mrs : shr_record) :
  (0 <= shr_m mrs)%Z → (0 <= shr_m (shr_1 mrs))%Z.
Proof. destruct mrs as [[|[p|p|]|p] r s]; simpl; lia. Qed.

Lemma iter_shr_1_nonneg (p : positive) (mrs : shr_record) :
  (0 <= shr_m mrs)%Z → (0 <= shr_m (SpecFloat.iter_pos shr_1 p mrs))%Z.
Proof.
  revert mrs. induction p as [p IH|p IH|]; intros mrs H; simpl.
  - apply IH, IH. by apply shr_1_nonneg.
  - by apply IH, IH.
  - by apply shr_1_nonneg.
Qed.

Lemma shr_fexp_nonneg (m e : Z) (l : location) :
  (0 <= m)%Z → (0 <= shr_m (shr_fexp prec emax m e l).1)%Z.
Proof.
  intros Hm. unfold shr_fexp, shr.
  assert (0 <= shr_m (shr_record_of_loc m l))%Z as H0
    by (by destruct l as [|[]]).
  destruct (fexp prec emax (Zdigits2 m + e) - e)%Z; simpl; try done.
  by apply iter_shr_1_nonneg.
Qed.

Lemma round_nearest_even_nonneg (m : Z) (l : location) :
  (0 <= m)%Z → (0 <= round_nearest_even m l)%Z.
Proof. destruct l as [|[]]; simpl; try done; destruct (Z.even m); lia. Qed.

Lemma binary_round_aux_nonneg (m e : Z) (l : location) :
  (0 <= m)%Z → nonneg (binary_round_aux prec emax false m e l) = true.
Proof.
  intros Hm. unfold binary_round_aux.
  pose proof (shr_fexp_nonneg m e l Hm) as H1.
  destruct (shr_fexp prec emax m e l) as [mrs' e']. simpl in H1.
  pose proof (shr_fexp_nonneg _ e' loc_Exact
                (round_nearest_even_nonneg _ (loc_of_shr_record mrs') H1)) as H2.
  destruct (shr_fexp prec emax _ e' loc_Exact) as [mrs'' e'']. simpl in H2.
  destruct (shr_m mrs''); [done| |lia].
  by destruct (e'' <=? emax - prec)%Z.
Qed.

Lemma truediv_nonneg (a b : nat) : 0 < b → nonneg (truediv a b) = true.
Proof.
  intros Hb. unfold truediv.
  destruct (Z.of_nat b) as [|q|q] eqn:Eb; [lia| |lia].
  destruct (Z.of_nat a) as [|p|p] eqn:Ea; [done| |lia]. simpl.
  unfold SFdiv_core_binary.
  set (m' := match (_ - _ - _)%Z with Z.pos _ => _ | _ => _ end).
  assert (0 <= m')%Z as Hm'.
  { subst m'. destruct (_ - _ - _)%Z; try done. apply Z.shiftl_nonneg. lia. }
  pose proof (Z.div_pos m' (Z.pos q) Hm' ltac:(lia)) as Hq.
  unfold Z.div in Hq. destruct (Z.div_eucl m' (Z.pos q)) as [q0 r0].
  by apply binary_round_aux_nonneg.
Qed.

Lemma fmul_nonneg (s : bool) (m : positive) (e : Z) (y : pyfloat) :
  nonneg y = true → nonneg (fmul (S754_finite false m e) y) = true.
Proof.
  destruct y as [[]|[]| |[] my ey]; simpl; try done. intros _.
  by apply binary_round_aux_nonneg.
Qed.

Lemma fadd_nonneg (x y : pyfloat) :
  nonneg x = true → nonneg y = true → nonneg (fadd x y) = true.
Proof.
  destruct x as [[]|[]| |[] mx ex], y as [[]|[]| |[] my ey]; simpl; try done.
  intros _ _.
  unfold binary_round. destruct (shl_align _ _ _) as [mz ez].
  by apply binary_round_aux_nonneg.
Qed.

Lemma nonneg_not_nan (x : pyfloat) : nonneg x = true → is_nan x = false.
Proof. by destruct x as [[]|[]| |[] ? ?]. Qed.

Lemma nonneg_above_minus_one (x : pyfloat) :
  nonneg x = true → flt Fm1_0 x = true.
Proof. by destruct x as [[]|[]| |[] ? ?]. Qed.

(** ** Facts on the similarity *)

Lemma left_prefix_similarity_nonneg (a b : pystr) :
  nonneg (left_prefix_similarity a b) = true.
Proof.
  unfold left_prefix_similarity.
  destruct (_ =? 0) eqn:E; [done|]. apply Nat.eqb_neq in E.
  apply truediv_nonneg. lia.
Qed.

Lemma token_jaccard_nonneg (a b : pystr) :
  nonneg (token_jaccard a b) = true.
Proof.
  unfold token_jaccard.
  destruct (bool_decide (token_set a = ∅) && bool_decide (token_set b = ∅))
    eqn:E; [done|].
  apply truediv_nonneg.
  apply andb_false_iff in E.
  assert (token_set a ∪ token_set b ≠ ∅) as Hne.
  { destruct E as [E|E]; apply bool_decide_eq_false in E; set_solver. }
  assert (size (token_set a ∪ token_set b) ≠ 0); [|lia].
  apply size_non_empty_iff. by intros ?%leibniz_equiv.
Qed.

Lemma cisco_similarity_nonneg (a b : pystr) :
  nonneg (cisco_similarity a b) = true.
Proof.
  unfold cisco_similarity.
  destruct (split a) as [|a0 ta]; [done|].
  destruct (split b) as [|b0 tb]; [done|].
  case_bool_decide; [done|]. destruct (4 <? _); [done|].
  apply fadd_nonneg; apply (fmul_nonneg false);
    [apply left_prefix_similarity_nonneg | apply token_jaccard_nonneg].
Qed.

(** ** Ties between candidates (C10) *)

Section Ties.

Implicit Types (t b : list ParsedLine) (u : gset nat) (c : Candidate).

Variable s : pystr.

Let score (c : Candidate) : pyfloat := cisco_similarity s (p_string c.2).

Lemma score_not_nan c : is_nan (score c) = false.
Proof. apply nonneg_not_nan, cisco_similarity_nonneg. Qed.

(** The loop over the candidates of a line that is not a parent keeps the
    first candidate whose score no later candidate exceeds and that exceeds
    every earlier one. *)
Lemma best_candidate_scan cs bm bs r rs :
  best_candidate s false cs bm bs = (r, rs) →
  (r = bm ∧ rs = bs ∧ ∀ c', c' ∈ cs → flt bs (score c') = false)
  ∨ (∃ pre c post, cs = pre ++ c :: post ∧ r = Some c ∧ rs = score c
       ∧ flt bs (score c) = true
       ∧ (∀ c', c' ∈ pre → flt (score c') (score c) = true)
       ∧ (∀ c', c' ∈ post → flt (score c) (score c') = false)).
Proof.
  revert bm bs. induction cs as [|x cs IH]; intros bm bs; simpl.
  - intros [= <- <-]. left. split_and!; [done..|]. by intros c' ?%elem_of_nil.
  - fold (score x). destruct (flt bs (score x)) eqn:Hx; intros H.
    + right. destruct (IH _ _ H) as [(-> & -> & Hall)|
        (pre & c & post & -> & -> & -> & Hc & Hpre & Hpost)].
      * exists [], x, cs. by split_and!; [..|intros c' ?%elem_of_nil|].
      * exists (x :: pre), c, post. split_and!; try done.
        -- by apply (flt_trans _ (score x)).
        -- intros c' [->|?]%elem_of_cons; auto.
    + destruct (IH _ _ H) as [(-> & -> & Hall)|
        (pre & c & post & -> & -> & -> & Hc & Hpre & Hpost)].
      * left. split_and!; [done..|]. intros c' [->|?]%elem_of_cons; auto.
      * right. exists (x :: pre), c, post. split_and!; try done.
        intros c' [->|?]%elem_of_cons; [|auto].
        destruct (flt_cotrans bs (score x) (score c) (score_not_nan x) Hc)
          as [Hbx|?]; [congruence|done].
Qed.

Lemma best_candidate_first_max cs :
  match best_candidate s false cs None Fm1_0 with
  | (Some c, rs) =>
      ∃ pre post, cs = pre ++ c :: post ∧ rs = score c
        ∧ (∀ c', c' ∈ pre → flt (score c') (score c) = true)
        ∧ (∀ c', c' ∈ post → flt (score c) (score c') = false)
  | (None, rs) => cs = [] ∧ rs = Fm1_0
  end.
Proof.
  destruct (best_candidate s false cs None Fm1_0) as [r rs] eqn:E.
  destruct (best_candidate_scan _ _ _ _ _ E) as [(-> & -> & Hall)|
    (pre & c & post & -> & -> & -> & Hc & Hpre & Hpost)].
  - split; [|done]. destruct cs as [|x cs]; [done|].
    specialize (Hall x ltac:(left)).
    by rewrite nonneg_above_minus_one in Hall
      by apply cisco_similarity_nonneg.
  - by exists pre, post.
Qed.

Lemma below_threshold_all pre c post :
  fle F0_6 (score c) = false →
  (∀ c', c' ∈ pre → flt (score c') (score c) = true) →
  (∀ c', c' ∈ post → flt (score c) (score c') = false) →
  ∀ c', c' ∈ pre ++ c :: post → fle F0_6 (score c') = false.
Proof.
  intros Hc Hpre Hpost c' Hin.
  assert (flt (score c) F0_6 = true) as Hlt
    by (by apply fle_false_flt; [|apply score_not_nan|]).
  apply elem_of_app in Hin as [Hin|[->|Hin]%elem_of_cons]; [|done|].
  - apply flt_fle_false, (flt_trans _ (score c)); auto.
  - apply flt_fle_false.
    destruct (flt_cotrans _ (score c') _ (score_not_nan c') Hlt) as [H|H];
      [|done].
    by rewrite Hpost in H.
Qed.

End Ties.

(** C10: for a base line that is not a parent, the candidates are the target
    lines that have the path of the base line and that no earlier base line
    has consumed. The consumed one scores at least 0.6, every candidate
    before it in target order scores strictly less and no candidate after it
    scores more: among the candidates of greatest score the earliest in
    target order wins. When nothing is consumed, every candidate scores below
    0.6. The pairing [m] is a function of the two texts. *)
Theorem first_best_candidate_wins (target_cfg base_cfg : pystr) (k : nat)
    (base_item : ParsedLine) :
  parse base_cfg !! k = Some base_item →
  p_is_parent base_item = false →
  let t := parse target_cfg in
  let b := parse base_cfg in
  let m := consumed t b ∅ in
  let candidate := fun (j : nat) (y : ParsedLine) =>
    t !! j = Some y
    ∧ p_path y = p_path base_item
    ∧ ∀ k', k' < k → m !! k' ≠ Some (Some j) in
  let score := fun y : ParsedLine =>
    cisco_similarity (p_string base_item) (p_string y) in
  ∃ r, compare target_cfg base_cfg !! k = Some r ∧
    match m !! k with
    | Some (Some j) =>
        ∃ y, candidate j y
          ∧ r_is_matched r = true
          ∧ r_best_match r = p_string y
          ∧ r_similarity_score r = score y
          ∧ fle F0_6 (score y) = true
          ∧ ∀ j' y', candidate j' y' →
              (j' < j → flt (score y') (score y) = true)
              ∧ (j < j' → flt (score y) (score y') = false)
    | o =>
        o = Some None
        ∧ r_is_matched r = false
        ∧ ∀ j' y', candidate j' y' → fle F0_6 (score y') = false
    end.
Proof.
  intros Hk Hp. cbv zeta.
  eexists. split; [by apply compare_parsed_lookup|].
  rewrite (consumed_lookup _ _ _ _ _ Hk).
  set (t := parse target_cfg). set (b := parse base_cfg) in *.
  change (compare_base t (take k b) ∅).2 with (used_before t b k).
  unfold compare_line, accepted, search. rewrite Hp.
  set (cands := candidates t (p_path base_item) (used_before t b k)).
  assert (∀ j y, (t !! j = Some y ∧ p_path y = p_path base_item
                  ∧ ∀ k', k' < k → consumed t b ∅ !! k' ≠ Some (Some j))
                 ↔ (j, y) ∈ cands) as Hcand
    by (intros j y; symmetry; apply elem_of_candidates_before).
  pose proof (best_candidate_first_max (p_string base_item) cands) as H.
  destruct (best_candidate _ false cands None Fm1_0) as [[c|] rs].
  - destruct H as (pre & post & Hc & -> & Hpre & Hpost).
    destruct (candidates_order _ _ _ _ _ _ Hc) as [Hlo Hhi].
    destruct (fle F0_6 _) eqn:Hle; simpl.
    + exists c.2. split.
      { apply Hcand. rewrite Hc, elem_of_app, elem_of_cons.
        right. left. by destruct c. }
      do 4 (split; [done|]).
      * intros j' y' Hin%Hcand. rewrite Hc in Hin.
        apply elem_of_app in Hin as [Hin|[<-|Hin]%elem_of_cons].
        -- split; [intros _; by apply (Hpre _ Hin)|].
           apply Hlo in Hin. simpl in Hin. lia.
        -- simpl. split; lia.
        -- split; [|intros _; by apply (Hpost _ Hin)].
           apply Hhi in Hin. simpl in Hin. lia.
    + do 2 (split; [done|]). intros j' y' Hin%Hcand. rewrite Hc in Hin.
      by apply (below_threshold_all (p_string base_item) pre c post Hle
                  Hpre Hpost (j', y')).
  - destruct H as [Hnil ->]. simpl. do 2 (split; [done|]).
    intros j' y' Hin%Hcand. rewrite Hnil in Hin. by apply elem_of_nil in Hin.
Qed.

Lemma first_best_candidate_wins_witness :
  let target_cfg := lit "a b c
a b d
a b c" in
  let base_cfg := lit "a b x" in
  ∃ r, compare target_cfg base_cfg !! 0 = Some r ∧ r_best_match r = lit "a b c"
       ∧ consumed (parse target_cfg) (parse base_cfg) ∅ !! 0 = Some (Some 0).
Proof.
  intros target_cfg base_cfg.
  destruct (first_best_candidate_wins target_cfg base_cfg 0
              {| p_string := lit "a b x"; p_path := [];
                 p_is_parent := false |} eq_refl eq_refl) as (r & Hr & H).
  exists r. split; [exact Hr|]. clear H.
  vm_compute in Hr. injection Hr as <-. vm_compute. split; reflexivity.
Defined.

(** ** Shape of the parsed lines *)

Lemma lstrip_head (s r : pystr) (c : char) :
  lstrip s = c :: r → is_space c = false.
Proof.
  induction s as [|x s IH]; simpl; [done|].
  destruct (is_space x) eqn:E; [done|]. by intros [= <- _].
Qed.

Lemma lstrip_nonspace (c : char) (r : pystr) :
  is_space c = false → lstrip (c :: r) = c :: r.
Proof. intros H. simpl. by rewrite H. Qed.

Lemma lstrip_suffix (s : pystr) : ∃ pre, s = pre ++ lstrip s.
Proof.
  induction s as [|x s [pre IH]]; simpl; [by exists []|].
  destruct (is_space x); [|by exists []].
  exists (x :: pre). simpl. by f_equal.
Qed.

Lemma lstrip_lstrip (s : pystr) : lstrip (lstrip s) = lstrip s.
Proof.
  destruct (lstrip s) as [|c r] eqn:E; [done|].
  apply lstrip_nonspace. by eapply lstrip_head.
Qed.

Lemma strip_strip (s : pystr) : strip (strip s) = strip s.
Proof.
  unfold strip.
  destruct (lstrip_suffix (reverse (lstrip s))) as [pre Hpre].
  set (v := lstrip (reverse (lstrip s))) in *.
  assert (lstrip (reverse v) = reverse v) as ->.
  { destruct (reverse v) as [|c r] eqn:E; [done|]. apply lstrip_nonspace.
    apply (f_equal reverse) in Hpre.
    rewrite reverse_involutive, reverse_app, E in Hpre. simpl in Hpre.
    by eapply lstrip_head. }
  rewrite reverse_involutive. subst v. by rewrite lstrip_lstrip.
Qed.

Lemma elem_of_lstrip (s : pystr) (c : char) : c ∈ lstrip s → c ∈ s.
Proof.
  destruct (lstrip_suffix s) as [pre Hpre]. intros H.
  rewrite Hpre. apply elem_of_app. by right.
Qed.

Lemma elem_of_strip (s : pystr) (c : char) : c ∈ strip s → c ∈ s.
Proof.
  unfold strip. rewrite elem_of_reverse. intros H%elem_of_lstrip.
  rewrite elem_of_reverse in H. by apply elem_of_lstrip.
Qed.

Lemma splitlines_aux_no_linebreak (s cur : pystr) (skip : bool) (l : pystr) :
  l ∈ splitlines_aux s cur skip →
  (∀ c, c ∈ cur → is_linebreak c = false) →
  ∀ c, c ∈ l → is_linebreak c = false.
Proof.
  revert cur skip. induction s as [|x s IH]; intros cur skip; simpl.
  - destruct cur as [|y cur]; [by intros ?%elem_of_nil|].
    intros ->%list_elem_of_singleton Hcur c Hc. apply Hcur.
    by rewrite elem_of_reverse in Hc.
  - destruct (skip && (x =? LF)%N); [by apply IH|].
    destruct (is_linebreak x) eqn:E.
    + intros [->|Hl]%elem_of_cons Hcur c Hc.
      * apply Hcur. by rewrite elem_of_reverse in Hc.
      * eapply IH; [done| |done]. by intros ? ?%elem_of_nil.
    + intros Hl Hcur. eapply IH; [done|].
      intros c [->|?]%elem_of_cons; auto.
Qed.

Lemma split_aux_nil (s cur : pystr) :
  split_aux s cur = [] → cur = [] ∧ ∀ c, c ∈ s → is_space c = true.
Proof.
  revert cur. induction s as [|x s IH]; intros cur; simpl.
  - destruct cur; [|done]. intros _. split; [done|]. by intros c ?%elem_of_nil.
  - destruct (is_space x) eqn:E.
    + destruct cur; [|done]. intros [_ H]%IH. split; [done|].
      intros c [->|?]%elem_of_cons; auto.
    + by intros [? _]%IH.
Qed.

Lemma split_strip_nonempty (line : pystr) :
  strip line ≠ [] → split (strip line) ≠ [].
Proof.
  unfold strip, split. intros Hne Hs.
  apply split_aux_nil in Hs as [_ Hall].
  destruct (lstrip (reverse (lstrip line))) as [|c r] eqn:E; [done|].
  pose proof (lstrip_head _ _ _ E) as Hc.
  rewrite Hall in Hc; [done|]. rewrite elem_of_reverse. by left.
Qed.

Lemma parse_lines_strings (lines : list pystr) (st : list (nat * pystr)) :
  p_string <$> parse_lines lines st
  = filter (fun l => l ≠ []) (strip <$> lines).
Proof.
  revert st. induction lines as [|line rest IH]; intros st; [done|].
  cbn [parse_lines]. rewrite (fmap_cons strip).
  destruct (strip line) as [|c r] eqn:E.
  - rewrite filter_cons_False by (by intros H; apply H). apply IH.
  - rewrite filter_cons_True by done. rewrite fmap_cons. simpl. f_equal. apply IH.
Qed.

(** X1: the texts of the parsed lines are the stripped lines of the input
    that are not blank, in their order. *)
Theorem parse_strings (cfg : pystr) :
  p_string <$> parse cfg
  = filter (fun l => l ≠ []) (strip <$> splitlines cfg).
Proof. apply parse_lines_strings. Qed.

(** X2: the text of a parsed line is not empty, carries no surrounding white
    space and no line break, and has at least one token. *)
Theorem parse_string_shape (cfg : pystr) (x : ParsedLine) :
  x ∈ parse cfg →
  p_string x ≠ []
  ∧ strip (p_string x) = p_string x
  ∧ (∀ c, c ∈ p_string x → is_linebreak c = false)
  ∧ split (p_string x) ≠ [].
Proof.
  intros Hx. assert (p_string x ∈ p_string <$> parse cfg) as H
    by (by apply list_elem_of_fmap_2).
  unfold parse in H.
  rewrite parse_lines_strings, list_elem_of_filter, list_elem_of_fmap in H.
  destruct H as (Hne & l & Hl & Hin). rewrite Hl. split_and!.
  - by rewrite <- Hl.
  - apply strip_strip.
  - intros c Hc%elem_of_strip.
    eapply (splitlines_aux_no_linebreak cfg [] false l); [done| |done].
    by intros ? ?%elem_of_nil.
  - apply split_strip_nonempty. by rewrite <- Hl.
Qed.

Lemma parse_string_shape_witness :
  let x := {| p_string := lit "b c"; p_path := lit "a"; p_is_parent := false |} in
  strip (p_string x) = p_string x ∧ split (p_string x) ≠ [].
Proof.
  intros x.
  assert (Hx : x ∈ parse (lit "a
   b c  ")) by (vm_compute; apply list_elem_of_further, list_elem_of_here).
  destruct (parse_string_shape _ x Hx) as (_ & H1 & _ & H2). by split.
Defined.

(** ** Parents and the line after them *)

Lemma join_snoc (sep : pystr) (l : list pystr) (s : pystr) :
  join sep (l ++ [s])
  = match l with [] => s | _ => join sep l ++ sep ++ s end.
Proof.
  induction l as [|x l IH]; [done|].
  destruct l as [|y l]; [done|].
  change (x ++ sep ++ join sep ((y :: l) ++ [s])
          = (x ++ sep ++ join sep (y :: l)) ++ sep ++ s).
  rewrite IH. by rewrite <- !(assoc_L (++)).
Qed.

Lemma join_nonempty (sep : pystr) (l : list pystr) :
  l ≠ [] → Forall (fun s => s ≠ []) l → join sep l ≠ [].
Proof.
  destruct l as [|x l]; [done|]. intros _ [Hx _]%Forall_cons.
  destruct l; simpl; [done|]. by destruct x.
Qed.

Lemma join_length_app (sep : pystr) (l1 l2 : list pystr) :
  length (join sep l1) ≤ length (join sep (l1 ++ l2)).
Proof.
  induction l1 as [|x l1 IH]; [simpl; lia|].
  destruct l1 as [|y l1].
  - destruct l2; simpl; [lia|]. rewrite length_app. lia.
  - change (length (x ++ sep ++ join sep (y :: l1))
            ≤ length (x ++ sep ++ join sep ((y :: l1) ++ l2))).
    rewrite !length_app. lia.
Qed.

Lemma pop_scopes_suffix (st : list (nat * pystr)) (ind : nat) :
  ∃ pre, st = pre ++ pop_scopes st ind.
Proof.
  induction st as [|[i s] st [pre IH]]; simpl; [by exists []|].
  destruct (ind <=? i); [|by exists []].
  exists ((i, s) :: pre). simpl. by f_equal.
Qed.

Lemma pop_scopes_Forall (P : nat * pystr → Prop) (st : list (nat * pystr))
    (ind : nat) :
  Forall P st → Forall P (pop_scopes st ind).
Proof.
  destruct (pop_scopes_suffix st ind) as [pre Hpre]. intros H.
  rewrite Hpre in H. by apply Forall_app in H as [_ ?].
Qed.

Lemma parse_lines_nil (rest : list pystr) (st : list (nat * pystr)) (ind : nat) :
  parse_lines rest st = [] → next_is_deeper rest ind = false.
Proof.
  revert st. induction rest as [|l rest IH]; intros st; simpl; [done|].
  destruct (strip l); [apply IH|done].
Qed.

Lemma parse_lines_head (rest : list pystr) (st : list (nat * pystr)) (ind : nat)
    (y : ParsedLine) (ys : list ParsedLine) :
  parse_lines rest st = y :: ys →
  ∃ l, next_is_deeper rest ind = (ind <? indent l)
       ∧ p_path y = join DELIM (map snd (reverse (pop_scopes st (indent l)))).
Proof.
  revert st. induction rest as [|l rest IH]; intros st; simpl; [done|].
  destruct (strip l); [apply IH|]. intros [= <- _]. by exists l.
Qed.

Lemma full_path_join (P : list pystr) (s : pystr) :
  Forall (fun s => s ≠ []) P →
  join DELIM (P ++ [s]) = full_path (join DELIM P) s.
Proof.
  intros HP. rewrite join_snoc. unfold full_path.
  destruct P as [|x P]; [done|].
  pose proof (join_nonempty DELIM (x :: P) ltac:(done) HP) as Hne.
  by destruct (join DELIM (x :: P)).
Qed.

Lemma full_path_longer (path s : pystr) :
  s ≠ [] → length path < length (full_path path s).
Proof.
  intros Hs. unfold full_path. destruct path as [|c path]; simpl.
  - destruct s; [done|]. simpl. lia.
  - rewrite length_app. simpl. lia.
Qed.

Lemma parse_lines_adjacent (lines : list pystr) (st : list (nat * pystr))
    (i : nat) (x : ParsedLine) :
  Forall (fun p : nat * pystr => p.2 ≠ []) st →
  parse_lines lines st !! i = Some x →
  p_is_parent x = true
  ↔ ∃ y, parse_lines lines st !! S i = Some y
         ∧ p_path y = full_path (p_path x) (p_string x).
Proof.
  revert st i. induction lines as [|line rest IH]; intros st i Hst; [done|].
  cbn [parse_lines]. destruct (strip line) as [|c r] eqn:E; [by apply IH|].
  set (ind := indent line). set (popped := pop_scopes st ind).
  assert (Forall (fun p : nat * pystr => p.2 ≠ []) popped) as Hpop
    by (by apply pop_scopes_Forall).
  destruct i as [|i]; simpl.
  - intros [= <-]. simpl.
    set (P := map snd (reverse popped)).
    assert (Forall (fun s : pystr => s ≠ []) P) as HP.
    { subst P. apply Forall_fmap, Forall_reverse.
      eapply Forall_impl; [exact Hpop|]. by intros [??]. }
    destruct (parse_lines rest _) as [|y ys] eqn:Ey.
    + rewrite (parse_lines_nil _ _ _ Ey). split; [done|]. by intros (? & ? & _).
    + destruct (parse_lines_head _ _ ind _ _ Ey) as (l & -> & Hy).
      cbn [pop_scopes] in Hy. split.
      * intros Hlt. exists y. split; [done|]. rewrite Hy.
        apply Nat.ltb_lt in Hlt.
        rewrite (proj2 (Nat.leb_gt _ _)) by done.
        rewrite reverse_cons, map_app. by apply full_path_join.
      * intros (y' & [= <-] & Hy'). apply Nat.ltb_lt.
        destruct (decide (ind < indent l)) as [|Hge]; [done|]. exfalso.
        rewrite (proj2 (Nat.leb_le _ _)) in Hy by lia.
        destruct (pop_scopes_suffix popped (indent l)) as [pre Hpre].
        pose proof (full_path_longer (join DELIM P) (c :: r) ltac:(done)) as Hl.
        rewrite <- Hy', Hy in Hl.
        assert (P = map snd (reverse (pop_scopes popped (indent l)))
                    ++ map snd (reverse pre)) as HP'.
        { subst P. rewrite Hpre at 1. by rewrite reverse_app, map_app. }
        pose proof (join_length_app DELIM
          (map snd (reverse (pop_scopes popped (indent l))))
          (map snd (reverse pre))) as Hle.
        rewrite <- HP' in Hle. lia.
  - apply IH. apply Forall_cons. by split.
Qed.

(** X3: a parsed line is flagged as a parent exactly when the next parsed
    line exists and lies directly under it, that is, when the path of the
    next line is the path of the line extended by its text. *)
Theorem parent_iff_next_is_child (cfg : pystr) (i : nat) (x : ParsedLine) :
  parse cfg !! i = Some x →
  p_is_parent x = true
  ↔ ∃ y, parse cfg !! S i = Some y
         ∧ p_path y = full_path (p_path x) (p_string x).
Proof. by apply parse_lines_adjacent. Qed.

Lemma parent_iff_next_is_child_witness :
  ∃ y, parse (lit "interface e1
  shutdown
interface e2") !! 1 = Some y ∧ p_path y = lit "interface e1".
Proof.
  apply (parent_iff_next_is_child _ 0
           {| p_string := lit "interface e1"; p_path := [];
              p_is_parent := true |}); reflexivity.
Defined.

(** ** The parser never raises *)

Lemma bind_Ok {A B} (a : A) (f : A → M B) : (Ok a ≫= f) = f a.
Proof. done. Qed.

Lemma pop_scopes_checked_ok (n : nat) (st : list (nat * pystr)) (ind : nat) :
  length st < n →
  pop_scopes_checked n st ind = Ok (reverse (pop_scopes (reverse st) ind)).
Proof.
  revert st. induction n as [|n IH]; intros st Hn; [lia|].
  destruct st as [|a st'] using rev_ind; [done|]. clear IHst'.
  rewrite length_app in Hn. simpl in Hn.
  rewrite reverse_snoc. destruct a as [i s]. cbn [pop_scopes].
  cbn [pop_scopes_checked].
  destruct (st' ++ [(i, s)]) as [|b0 st0] eqn:E;
    [by destruct st'|]. rewrite <- E. clear E b0 st0.
  unfold getlast. rewrite last_snoc, bind_Ok. cbn [fst].
  destruct (ind <=? i).
  - unfold pop. destruct (st' ++ [(i, s)]) as [|b0 st0] eqn:E;
      [by destruct st'|]. rewrite <- E. clear E b0 st0.
    rewrite bind_Ok, length_app. simpl.
    replace (length st' + 1 - 1) with (length st') by lia.
    rewrite take_app_length. apply IH. lia.
  - by rewrite reverse_cons, reverse_involutive.
Qed.

Lemma lookahead_checked_ok (lines : list pystr) (ind j n : nat) :
  j + n = length lines →
  lookahead_checked lines ind j n = Ok (next_is_deeper (drop j lines) ind).
Proof.
  revert j. induction n as [|n IH]; intros j Hj; simpl.
  - by rewrite drop_ge by lia.
  - destruct (lookup_lt_is_Some_2 lines j ltac:(lia)) as [l Hl].
    unfold getitem. rewrite Hl, bind_Ok.
    rewrite (drop_S _ _ _ Hl). simpl.
    destruct (strip l); [|done]. apply IH. lia.
Qed.

Lemma parse_loop_checked_ok (lines todo : list pystr) (i : nat)
    (result : list ParsedLine) (st : list (nat * pystr)) :
  drop i lines = todo →
  parse_loop_checked lines todo i result st
  = Ok (result ++ parse_lines todo (reverse st)).
Proof.
  revert i result st.
  induction todo as [|line todo IH]; intros i result st Hd.
  - simpl. by rewrite app_nil_r.
  - assert (lines !! i = Some line) as Hi.
    { rewrite <- (Nat.add_0_r i), <- lookup_drop, Hd. done. }
    assert (drop (S i) lines = todo) as Hd'.
    { rewrite (drop_S _ _ _ Hi) in Hd. by injection Hd. }
    pose proof (lookup_lt_Some _ _ _ Hi) as Hlt.
    cbn [parse_loop_checked parse_lines].
    destruct (strip line) as [|c r] eqn:E; [by apply IH|].
    rewrite pop_scopes_checked_ok by lia. rewrite bind_Ok.
    rewrite lookahead_checked_ok by lia. rewrite bind_Ok.
    rewrite IH by done. rewrite Hd'.
    rewrite reverse_snoc, reverse_involutive.
    by rewrite <- (assoc_L (++)).
Qed.

(** X4: [parse] raises on no input. Run with the index accesses and the
    [while] loop of the source, it ends with the list of parsed lines: no
    index is out of range and no stack is popped when empty. *)
Theorem parse_never_raises (cfg : pystr) :
  parse_checked cfg = Ok (parse cfg).
Proof. unfold parse_checked. by rewrite parse_loop_checked_ok. Qed.

(** ** More on the similarity *)

Lemma common_prefix_len_comm (a b : list pystr) :
  common_prefix_len a b = common_prefix_len b a.
Proof.
  revert b. induction a as [|x a IH]; intros [|y b]; simpl; try done.
  rewrite (IH b). do 2 case_bool_decide; congruence.
Qed.

Lemma common_prefix_len_same (l : list pystr) :
  common_prefix_len l l = length l.
Proof.
  induction l as [|x l IH]; simpl; [done|]. by rewrite bool_decide_true, IH.
Qed.

Lemma left_prefix_similarity_sym (a b : pystr) :
  left_prefix_similarity a b = left_prefix_similarity b a.
Proof.
  unfold left_prefix_similarity.
  by rewrite common_prefix_len_comm, Nat.max_comm.
Qed.

Lemma token_jaccard_sym (a b : pystr) : token_jaccard a b = token_jaccard b a.
Proof.
  unfold token_jaccard.
  by rewrite andb_comm, (comm_L (∩) (token_set a)), (comm_L (∪) (token_set a)).
Qed.

Lemma abs_diff_comm (m n : nat) : abs_diff m n = abs_diff n m.
Proof. unfold abs_diff. lia. Qed.

(** X5: the similarity of two lines does not depend on which of them is the
    base line. *)
Theorem cisco_similarity_sym (a b : pystr) :
  cisco_similarity a b = cisco_similarity b a.
Proof.
  unfold cisco_similarity.
  rewrite (left_prefix_similarity_sym a b), (token_jaccard_sym a b).
  rewrite (abs_diff_comm (length (split a))).
  destruct (split a) as [|a0 ta], (split b) as [|b0 tb]; try done.
  do 2 case_bool_decide; congruence.
Qed.

(** X6: two lines with the same tokens, whatever white space separates them,
    score exactly 1.0. *)
Theorem same_tokens_score_one (a b : pystr) :
  split a = split b → split a ≠ [] → cisco_similarity a b = F1_0.
Proof.
  intros Hab Hne. unfold cisco_similarity, left_prefix_similarity,
    token_jaccard, token_set.
  rewrite <- Hab. destruct (split a) as [|a0 ta] eqn:E; [done|].
  rewrite bool_decide_false by (by intros H; apply H).
  replace (abs_diff _ _) with 0 by (unfold abs_diff; lia).
  rewrite Nat.max_id. cbn [Nat.ltb Nat.leb Nat.eqb length].
  rewrite common_prefix_len_same.
  set (A := list_to_set (a0 :: ta) : gset pystr).
  assert (A ≠ ∅) as HA by (subst A; set_solver).
  rewrite (bool_decide_false (A = ∅)) by done. cbn [andb].
  replace (A ∩ A) with A by set_solver.
  replace (A ∪ A) with A by set_solver.
  rewrite !truediv_self; [reflexivity| |simpl; lia].
  assert (size A ≠ 0); [|lia].
  apply size_non_empty_iff. by intros ?%leibniz_equiv.
Qed.

Lemma same_tokens_score_one_witness :
  cisco_similarity (lit "ip  address 10.0.0.1") (lit "ip address   10.0.0.1")
  = F1_0.
Proof. apply same_tokens_score_one; [reflexivity | by vm_compute]. Defined.

(** ** The records and their scores *)

Lemma filter_all {A} (P : A → Prop) `{!∀ x, Decision (P x)} (l : list A) :
  (∀ x, x ∈ l → P x) → filter P l = l.
Proof.
  induction l as [|x l IH]; intros Hl; [done|].
  rewrite filter_cons_True by (apply Hl; by left).
  f_equal. apply IH. intros y Hy. apply Hl. by right.
Qed.

Lemma filter_none {A} (P : A → Prop) `{!∀ x, Decision (P x)} (l : list A) :
  (∀ x, x ∈ l → ¬ P x) → filter P l = [].
Proof.
  induction l as [|x l IH]; intros Hl; [done|].
  rewrite filter_cons_False by (apply Hl; by left).
  apply IH. intros y Hy. apply Hl. by right.
Qed.

Lemma diff_positions_same (a : pystr) : diff_positions a a = [].
Proof.
  unfold diff_positions.
  rewrite Nat.min_id, Nat.max_id, Nat.sub_diag, app_nil_r.
  apply filter_none. intros i _ Hi. by apply Hi.
Qed.

Lemma search_not_parent (t : list ParsedLine) (u : gset nat)
    (base_item : ParsedLine) :
  p_is_parent base_item = false →
  match search t u base_item with
  | (Some c, rs) =>
      rs = cisco_similarity (p_string base_item) (p_string c.2)
  | (None, rs) => candidates t (p_path base_item) u = [] ∧ rs = Fm1_0
  end.
Proof.
  intros Hp. unfold search. rewrite Hp.
  pose proof (best_candidate_first_max (p_string base_item)
                (candidates t (p_path base_item) u)) as H.
  destruct (best_candidate _ _ _ _ _) as [[c|] rs]; [|done].
  by destruct H as (? & ? & _ & -> & _).
Qed.

(** X7: what the score of a record tells. A target-only record has score
    -2.0; a matched record has a score of at least 0.6; a base record that
    is not matched has score -1.0, or it is not a parent and its best
    candidate scored at least 0 and less than 0.6. *)
Theorem score_by_origin (target_cfg base_cfg : pystr) (r : DiffItem) :
  r ∈ compare target_cfg base_cfg →
  let score := r_similarity_score r in
  if r_is_added r then r_is_matched r = false ∧ score = Fm2_0
  else if r_is_matched r then fle F0_6 score = true ∧ nonneg score = true
  else score = Fm1_0
       ∨ (r_is_parent r = false ∧ nonneg score = true
          ∧ fle F0_6 score = false).
Proof.
  unfold compare. rewrite elem_of_compare_parsed.
  intros [(k & base_item & _ & ->)|(c & _ & ->)]; [|done].
  set (t := parse target_cfg). set (u := used_before _ _ _).
  unfold compare_line, accepted.
  destruct (p_is_parent base_item) eqn:Hp.
  - rewrite (search_parent _ _ _ Hp).
    destruct (list_find _ _) as [[i c]|]; simpl; [done|by left].
  - pose proof (search_not_parent t u base_item Hp) as H.
    destruct (search t u base_item) as [[c|] rs]; simpl.
    + subst rs. destruct (fle F0_6 _) eqn:Hle; simpl.
      * split; [done|]. apply cisco_similarity_nonneg.
      * right. split_and!; [done| |done]. apply cisco_similarity_nonneg.
    + left. by destruct H.
Qed.

Lemma score_by_origin_witness :
  let r := {| r_string := lit "a b x"; r_best_match := [];
              r_is_parent := false;
              r_similarity_score := cisco_similarity (lit "a b x") (lit "a c");
              r_is_matched := false; r_diff_positions := [0; 1; 2; 3; 4];
              r_path := []; r_is_added := false |} in
  r_similarity_score r = Fm1_0
  ∨ (r_is_parent r = false ∧ nonneg (r_similarity_score r) = true
     ∧ fle F0_6 (r_similarity_score r) = false).
Proof.
  intros r.
  assert (Hr : r ∈ compare (lit "a c") (lit "a b x"))
    by (vm_compute; apply list_elem_of_here).
  exact (score_by_origin _ _ r Hr).
Defined.

(** ** Empty configurations *)

Lemma unused_empty (t : list ParsedLine) : unused t ∅ = imap pair t.
Proof. unfold unused. apply filter_all. set_solver. Qed.

Lemma added_items_empty (t : list ParsedLine) :
  added_items t ∅ = added_item <$> t.
Proof.
  unfold added_items. rewrite unused_empty.
  change (map ?f ?l) with (f <$> l). rewrite fmap_imap.
  by rewrite <- imap_const.
Qed.

(** X8: when the base text has no structural line, the result is one added
    record per parsed target line, in target order, and nothing else. *)
Theorem empty_base_all_added (target_cfg base_cfg : pystr) :
  parse base_cfg = [] →
  compare target_cfg base_cfg = added_item <$> parse target_cfg
  ∧ ∀ r, r ∈ compare target_cfg base_cfg → disposition r = Unmatched_Added.
Proof.
  intros Hb. unfold compare. rewrite Hb. unfold compare_parsed. simpl.
  rewrite added_items_empty. split; [done|].
  by intros r (x & -> & _)%list_elem_of_fmap.
Qed.

Lemma empty_base_all_added_witness :
  compare (lit "hostname sw1
vlan 10") (lit "

  ")
  = added_item <$> parse (lit "hostname sw1
vlan 10").
Proof. apply empty_base_all_added. reflexivity. Defined.

Lemma compare_base_empty_target (b : list ParsedLine) (u : gset nat) :
  compare_base [] b u
  = ((fun x => (compare_line [] u x).1) <$> b, u).
Proof.
  induction b as [|x b IH]; [done|].
  cbn [compare_base].
  assert ((compare_line [] u x).2 = u) as Hu.
  { unfold compare_line, accepted, search. simpl. by destruct (p_is_parent x). }
  rewrite fmap_cons. destruct (compare_line [] u x) as [r u1].
  simpl in Hu. subst u1. by rewrite IH.
Qed.

(** X9: when the target text has no structural line, the result is one
    record per parsed base line, in base order, each unmatched with score
    -1.0 and an empty matched text, and no added record. *)
Theorem empty_target_all_removed (target_cfg base_cfg : pystr) :
  parse target_cfg = [] →
  r_string <$> compare target_cfg base_cfg = p_string <$> parse base_cfg
  ∧ ∀ r, r ∈ compare target_cfg base_cfg →
      r_is_matched r = false ∧ r_best_match r = []
      ∧ r_similarity_score r = Fm1_0
      ∧ r_diff_positions r = seq 0 (length (r_string r))
      ∧ disposition r = Unmatched_Removed.
Proof.
  intros Ht. unfold compare. rewrite Ht. unfold compare_parsed.
  rewrite compare_base_empty_target. unfold added_items, unused. simpl.
  rewrite app_nil_r. split.
  - rewrite <- list_fmap_compose. apply list_fmap_ext. intros _ x _. simpl.
    unfold compare_line, accepted, search. simpl. by destruct (p_is_parent x).
  - intros r (x & -> & _)%list_elem_of_fmap.
    unfold compare_line, accepted, search. simpl. by destruct (p_is_parent x).
Qed.

Lemma empty_target_all_removed_witness :
  r_string <$> compare [] (lit "hostname sw1
vlan 10")
  = [lit "hostname sw1"; lit "vlan 10"].
Proof.
  refine (eq_trans (proj1 (empty_target_all_removed [] _ _)) _); reflexivity.
Defined.

(** ** Records of parent lines *)

(** X10: the record of a base line that is a parent is never rendered as
    changed. When it is matched, its matched text is its own text, its score
    is 1.0 and it has no differing position; when it is not, its score is
    -1.0. *)
Theorem parent_record_never_changed (target_cfg base_cfg : pystr) (r : DiffItem) :
  r ∈ compare target_cfg base_cfg →
  r_is_parent r = true →
  disposition r ≠ Matched_Changed
  ∧ (r_is_added r = false →
     if r_is_matched r
     then r_best_match r = r_string r ∧ r_similarity_score r = F1_0
          ∧ r_diff_positions r = [] ∧ disposition r = Matched_Identical
     else r_similarity_score r = Fm1_0 ∧ disposition r = Unmatched_Removed).
Proof.
  unfold compare. rewrite elem_of_compare_parsed.
  intros [(k & base_item & _ & ->)|(c & _ & ->)]; [|done].
  set (t := parse target_cfg). set (u := used_before _ _ _).
  intros Hp. assert (p_is_parent base_item = true) as Hp'.
  { revert Hp. unfold compare_line. by destruct (accepted _ _ _). }
  clear Hp. pose proof (accepted_parent t u base_item Hp') as H.
  unfold compare_line.
  destruct (list_find _ _) as [[i c]|] eqn:E; destruct H as [-> ->].
  - apply list_find_Some in E as (_ & Hc & _). simpl.
    rewrite Hc, diff_positions_same. by unfold disposition.
  - by unfold disposition.
Qed.

Lemma parent_record_never_changed_witness :
  let r := {| r_string := lit "interface e1"; r_best_match := lit "interface e1";
              r_is_parent := true; r_similarity_score := F1_0;
              r_is_matched := true; r_diff_positions := [];
              r_path := []; r_is_added := false |} in
  r_best_match r = r_string r ∧ r_similarity_score r = F1_0
  ∧ r_diff_positions r = [] ∧ disposition r = Matched_Identical.
Proof.
  intros r.
  assert (Hr : r ∈ compare (lit "interface e1
 mtu 9000") (lit "interface e1
 shutdown"))
    by (vm_compute; apply list_elem_of_here).
  exact (proj2 (parent_record_never_changed _ _ r Hr eq_refl) eq_refl).
Defined.

(** ** The tree builder *)

Lemma dict_get_set_eq (k : pystr) (v : Tree) (es : list (pystr * Tree)) :
  dict_get k (dict_set k v es) = Some v.
Proof.
  induction es as [|[k' v'] es IH]; simpl.
  - by rewrite bool_decide_true.
  - case_bool_decide as Hk; simpl.
    + by rewrite bool_decide_true.
    + by rewrite bool_decide_false.
Qed.

Lemma dict_get_set_ne (k k' : pystr) (v : Tree) (es : list (pystr * Tree)) :
  k ≠ k' → dict_get k' (dict_set k v es) = dict_get k' es.
Proof.
  intros Hne. induction es as [|[k0 v0] es IH]; simpl.
  - by rewrite bool_decide_false.
  - case_bool_decide as Hk; simpl.
    + subst k0. by rewrite !bool_decide_false.
    + by rewrite IH.
Qed.

Lemma items_at_cons (k : pystr) (ks : list pystr) (es : list (pystr * Tree)) :
  items_at (k :: ks) (PyDict es)
  = match dict_get k es with Some c => items_at ks c | None => [] end.
Proof. unfold items_at. simpl. by destruct (dict_get k es). Qed.

Lemma sound_empty : sound (PyDict []).
Proof. intros [|k ks] _; done. Qed.

Lemma sound_child (part : pystr) (es : list (pystr * Tree)) :
  part ≠ ROOT_ITEMS → sound (PyDict es) →
  sound (default (PyDict []) (dict_get part es)).
Proof.
  intros Hp Hs. destruct (dict_get part es) as [c|] eqn:E; simpl.
  - intros ks Hks. specialize (Hs (part :: ks)). simpl in Hs. rewrite E in Hs.
    apply Hs. rewrite not_elem_of_cons. split; [by intros <-|done].
  - apply sound_empty.
Qed.

Lemma tree_insert_ok (parts : list pystr) (item : option DiffItem)
    (node : Tree) :
  ROOT_ITEMS ∉ parts → sound node →
  ∃ node', tree_insert parts item node = Ok node' ∧ sound node'
    ∧ ∀ ks, ROOT_ITEMS ∉ ks →
        items_at ks node'
        = items_at ks node
          ++ (if decide (ks = parts) then option_list item else []).
Proof.
  revert node. induction parts as [|part parts IH]; intros node Hparts Hs.
  - pose proof (Hs [] ltac:(by intros ?%elem_of_nil)) as H0. simpl in H0.
    destruct node as [es|]; [|done]. destruct item as [it|]; simpl.
    + destruct (dict_get ROOT_ITEMS es) as [[|items]|] eqn:E; [done| |]; simpl.
      * eexists. split; [done|]. split.
        -- intros [|k ks] Hks; simpl; [by rewrite dict_get_set_eq|].
           apply not_elem_of_cons in Hks as [Hk Hks].
           rewrite dict_get_set_ne by done.
           specialize (Hs (k :: ks)). simpl in Hs. apply Hs.
           by apply not_elem_of_cons.
        -- intros [|k ks] Hks.
           ++ unfold items_at. simpl. by rewrite dict_get_set_eq, E.
           ++ apply not_elem_of_cons in Hks as [Hk Hks].
              rewrite !items_at_cons, dict_get_set_ne by done.
              by rewrite app_nil_r.
      * eexists. split; [done|]. split.
        -- intros [|k ks] Hks; simpl; [by rewrite dict_get_set_eq|].
           apply not_elem_of_cons in Hks as [Hk Hks].
           rewrite dict_get_set_ne by done.
           specialize (Hs (k :: ks)). simpl in Hs. apply Hs.
           by apply not_elem_of_cons.
        -- intros [|k ks] Hks.
           ++ unfold items_at. simpl. by rewrite dict_get_set_eq, E.
           ++ apply not_elem_of_cons in Hks as [Hk Hks].
              rewrite !items_at_cons, dict_get_set_ne by done.
              by rewrite app_nil_r.
    + eexists. split; [done|]. split; [done|].
      intros ks _. destruct (decide _); by rewrite app_nil_r.
  - apply not_elem_of_cons in Hparts as [Hp Hparts].
    pose proof (Hs [] ltac:(by intros ?%elem_of_nil)) as H0. simpl in H0.
    destruct node as [es|]; [|done]. cbn [tree_insert].
    assert (part ≠ ROOT_ITEMS) as Hp' by congruence.
    destruct (IH (default (PyDict []) (dict_get part es)) Hparts
                (sound_child _ _ Hp' Hs)) as (child' & -> & Hs' & Hitems).
    rewrite bind_Ok. eexists. split; [done|]. split.
    + intros [|k ks] Hks; simpl.
      * rewrite dict_get_set_ne by done. exact H0.
      * apply not_elem_of_cons in Hks as [Hk Hks].
        destruct (decide (k = part)) as [->|Hne].
        -- rewrite dict_get_set_eq. simpl. by apply Hs'.
        -- rewrite dict_get_set_ne by done.
           specialize (Hs (k :: ks)). simpl in Hs. apply Hs.
           by apply not_elem_of_cons.
    + intros [|k ks] Hks.
      * unfold items_at. simpl. rewrite dict_get_set_ne by done.
        by rewrite app_nil_r.
      * apply not_elem_of_cons in Hks as [Hk Hks]. rewrite !items_at_cons.
        destruct (decide (k = part)) as [->|Hne].
        -- rewrite dict_get_set_eq, (Hitems ks Hks).
           f_equal.
           ++ destruct (dict_get part es) as [c|]; simpl; [done|].
              by destruct ks.
           ++ destruct (decide (ks = parts)) as [->|Hne];
                [by rewrite decide_True|].
              rewrite decide_False; [done|]. by intros [= ?].
        -- rewrite dict_get_set_ne by done.
           rewrite decide_False by (by intros [= ? ?]).
           by rewrite app_nil_r.
Qed.

Lemma build_tree_from_ok (results : list DiffItem) (tree : Tree) :
  (∀ r, r ∈ results → ROOT_ITEMS ∉ path_parts (r_path r)) →
  sound tree →
  ∃ tree', build_tree_from results tree = Ok tree' ∧ sound tree'
    ∧ ∀ ks, ROOT_ITEMS ∉ ks →
        items_at ks tree'
        = items_at ks tree
          ++ filter (fun r => path_parts (r_path r) = ks ∧ skipped r = false)
                    results.
Proof.
  revert tree. induction results as [|r results IH]; intros tree Hall Hs.
  - exists tree. split; [done|]. split; [done|].
    intros ks _. by rewrite app_nil_r.
  - cbn [build_tree_from]. unfold build_step.
    destruct (tree_insert_ok (path_parts (r_path r))
                (if skipped r then None else Some r) tree
                (Hall r ltac:(left)) Hs) as (tree1 & -> & Hs1 & Hi1).
    rewrite bind_Ok.
    destruct (IH tree1 (fun r' Hr' => Hall r' ltac:(by right)) Hs1)
      as (tree' & -> & Hs' & Hi').
    exists tree'. split; [done|]. split; [done|].
    intros ks Hks. rewrite (Hi' ks Hks), (Hi1 ks Hks), <- (assoc_L (++)).
    f_equal. rewrite filter_cons.
    destruct (decide (ks = _)) as [->|Hne].
    + destruct (skipped r) eqn:E; simpl.
      * by rewrite decide_False by (by intros [_ ?]).
      * by rewrite decide_True.
    + by rewrite decide_False by (by intros [? _]).
Qed.

(** X11: when no path segment of any record is the text "root_items", the
    tree builder raises nothing, and the list kept by the section reached
    by the keys [ks] holds, in result order, exactly the records whose path
    splits into [ks] and that are not unmatched parents. So each record that
    is not an unmatched parent is listed once, in the section of its own
    path, and an unmatched parent, removed or added, is listed nowhere. *)
Theorem build_tree_placement (results : list DiffItem) :
  (∀ r, r ∈ results → ROOT_ITEMS ∉ path_parts (r_path r)) →
  ∃ tree, _build_tree results = Ok tree
    ∧ ∀ ks, ROOT_ITEMS ∉ ks →
        items_at ks tree
        = filter (fun r => path_parts (r_path r) = ks ∧ skipped r = false)
                 results.
Proof.
  intros Hall.
  destruct (build_tree_from_ok results (PyDict []) Hall sound_empty)
    as (tree & Ht & _ & Hi).
  exists tree. split; [done|]. intros ks Hks. rewrite (Hi ks Hks).
  by destruct ks.
Qed.

Lemma build_tree_placement_witness :
  let results := compare (lit "interface e1
 mtu 9000
vlan 10") (lit "interface e1
 mtu 1500
interface e2
 shutdown") in
  ∃ tree, _build_tree results = Ok tree
    ∧ r_string <$> items_at [lit "interface e1"] tree
      = [lit "mtu 1500"; lit "mtu 9000"]
    ∧ r_string <$> items_at [] tree = [lit "interface e1"; lit "vlan 10"].
Proof.
  intros results.
  assert (Hall : ∀ r, r ∈ results → ROOT_ITEMS ∉ path_parts (r_path r)).
  { apply Forall_forall. apply (bool_decide_unpack _). by vm_compute. }
  destruct (build_tree_placement results Hall) as (tree & Ht & Hi).
  clear Hall. exists tree. split; [exact Ht|]. clear Ht.
  assert (H1 : ROOT_ITEMS ∉ [lit "interface e1"])
    by (apply (bool_decide_unpack _); by vm_compute).
  assert (H0 : ROOT_ITEMS ∉ @nil pystr)
    by (apply (bool_decide_unpack _); by vm_compute).
  pose proof (Hi _ H1) as E1. pose proof (Hi _ H0) as E0. clear Hi H0 H1.
  rewrite E1, E0. clear E1 E0. split; vm_compute; reflexivity.
Defined.

(** ** The key "root_items" as a path segment *)

Lemma build_tree_from_app (l1 l2 : list DiffItem) (tree : Tree) :
  build_tree_from (l1 ++ l2) tree
  = build_tree_from l1 tree ≫= build_tree_from l2.
Proof.
  revert tree. induction l1 as [|r l1 IH]; intros tree; [done|].
  cbn [app build_tree_from]. destruct (build_step tree r) as [tree'|e]; [|done].
  rewrite !bind_Ok. apply IH.
Qed.

Lemma tree_insert_raise (parts : list pystr) (item : option DiffItem)
    (node : Tree) (e : Exn) :
  tree_insert parts item node = Raise e → e = AttributeError.
Proof.
  revert node. induction parts as [|part parts IH]; intros node; simpl.
  - destruct item as [it|]; [|done]. destruct node as [es|l]; [|congruence].
    destruct (default _ _); congruence.
  - destruct node as [es|l]; [|congruence].
    destruct (tree_insert parts item _) as [c|e'] eqn:E; [done|].
    intros [= <-]. by eapply IH.
Qed.

Lemma build_tree_from_raise (results : list DiffItem) (tree : Tree) (e : Exn) :
  build_tree_from results tree = Raise e → e = AttributeError.
Proof.
  revert tree. induction results as [|r results IH]; intros tree; [done|].
  cbn [build_tree_from]. unfold build_step.
  destruct (tree_insert _ _ tree) as [tree'|e'] eqn:E.
  - rewrite bind_Ok. apply IH.
  - intros [= <-]. by eapply tree_insert_raise.
Qed.

Lemma tree_insert_dict (parts : list pystr) (item : option DiffItem)
    (es : list (pystr * Tree)) (node' : Tree) :
  tree_insert parts item (PyDict es) = Ok node' → ∃ es', node' = PyDict es'.
Proof.
  destruct parts as [|part parts]; simpl.
  - destruct item as [it|]; [|intros [= <-]; eauto].
    destruct (default _ _); [done|]. intros [= <-]. eauto.
  - destruct (tree_insert parts item _) as [c|e]; [|done].
    intros [= <-]. eauto.
Qed.

Lemma tree_insert_list (parts : list pystr) (item : option DiffItem)
    (l : list DiffItem) (node' : Tree) :
  tree_insert parts item (PyList l) = Ok node' →
  parts = [] ∧ item = None ∧ node' = PyList l.
Proof. destruct parts, item; simpl; try done. by intros [= <-]. Qed.

Lemma path_parts_nil (path : pystr) : path_parts path = [] → path = [].
Proof.
  destruct path as [|c path]; [done|]. unfold path_parts.
  generalize (c :: path). intros s. destruct s as [|c' s]; simpl; [done|].
  destruct (c' =? DELIM_char)%N; [done|]. by destruct (split_on _ s).
Qed.

(** Once the top level keeps a list under "root_items", it keeps one. *)
Lemma tree_insert_keeps_list (parts : list pystr) (item : option DiffItem)
    (tree tree' : Tree) (l : list DiffItem) :
  root_entry tree = Some (PyList l) →
  tree_insert parts item tree = Ok tree' →
  ∃ l', root_entry tree' = Some (PyList l').
Proof.
  destruct tree as [es|]; [|done]. simpl. intros Hl.
  destruct parts as [|part parts]; simpl.
  - destruct item as [it|]; [|intros [= <-]; eauto].
    rewrite Hl. simpl. intros [= <-]. simpl. rewrite dict_get_set_eq. eauto.
  - destruct (tree_insert parts item _) as [c|e] eqn:E; [|done].
    intros [= <-]. simpl. destruct (decide (part = ROOT_ITEMS)) as [->|Hne].
    + rewrite dict_get_set_eq. rewrite Hl in E. simpl in E.
      apply tree_insert_list in E as (_ & _ & ->). eauto.
    + rewrite dict_get_set_ne by done. eauto.
Qed.

Lemma build_keeps_list (results : list DiffItem) (tree tree' : Tree)
    (l : list DiffItem) :
  root_entry tree = Some (PyList l) →
  build_tree_from results tree = Ok tree' →
  ∃ l', root_entry tree' = Some (PyList l').
Proof.
  revert tree l. induction results as [|r results IH]; intros tree l Hl.
  - intros [= <-]. eauto.
  - cbn [build_tree_from]. unfold build_step.
    destruct (tree_insert _ _ tree) as [tree1|e] eqn:E; [|done].
    rewrite bind_Ok.
    destruct (tree_insert_keeps_list _ _ _ _ _ Hl E) as [l1 Hl1].
    by apply (IH _ _ Hl1).
Qed.

Lemma kept_top_makes_list (tree tree' : Tree) (r : DiffItem) :
  r_path r = [] → skipped r = false →
  build_step tree r = Ok tree' →
  ∃ l', root_entry tree' = Some (PyList l').
Proof.
  intros Hp Hs. unfold build_step. rewrite Hp, Hs. simpl.
  destruct tree as [es|]; [|done].
  destruct (default _ _); [done|]. intros [= <-]. simpl.
  rewrite dict_get_set_eq. eauto.
Qed.

Lemma root_path_raises (tree : Tree) (r : DiffItem) (l : list DiffItem)
    (ps : list pystr) :
  root_entry tree = Some (PyList l) →
  path_parts (r_path r) = ROOT_ITEMS :: ps →
  skipped r = false ∨ ps ≠ [] →
  build_step tree r = Raise AttributeError.
Proof.
  destruct tree as [es|]; [|done]. simpl. intros Hl Hp H.
  unfold build_step. rewrite Hp. cbn [tree_insert]. rewrite Hl. simpl.
  destruct ps as [|p ps]; [|done].
  destruct H as [->|]; done.
Qed.

(** X12: when a kept top-level record comes anywhere before a record whose
    path starts with the segment "root_items", the tree builder raises
    AttributeError, whatever the other records are: the walk takes the list
    of the top level for a section. The later record only passes when it is
    put in no list and its path has no deeper segment. *)
Theorem build_tree_root_items_list (pre mid rest : list DiffItem)
    (r1 r2 : DiffItem) (ps : list pystr) :
  r_path r1 = [] → skipped r1 = false →
  path_parts (r_path r2) = ROOT_ITEMS :: ps →
  skipped r2 = false ∨ ps ≠ [] →
  _build_tree (pre ++ r1 :: mid ++ r2 :: rest) = Raise AttributeError.
Proof.
  intros Hp1 Hs1 Hp2 H2. unfold _build_tree.
  rewrite build_tree_from_app.
  destruct (build_tree_from pre _) as [t0|e] eqn:E0;
    [|by rewrite (build_tree_from_raise _ _ _ E0)].
  rewrite bind_Ok. cbn [build_tree_from].
  destruct (build_step t0 r1) as [t1|e] eqn:E1;
    [|by rewrite (tree_insert_raise _ _ _ _ E1)].
  rewrite bind_Ok, build_tree_from_app.
  destruct (kept_top_makes_list _ _ _ Hp1 Hs1 E1) as [l1 Hl1].
  destruct (build_tree_from mid t1) as [t2|e] eqn:E2;
    [|by rewrite (build_tree_from_raise _ _ _ E2)].
  rewrite bind_Ok. cbn [build_tree_from].
  destruct (build_keeps_list _ _ _ _ Hl1 E2) as [l2 Hl2].
  by rewrite (root_path_raises _ _ _ _ Hl2 Hp2 H2).
Qed.

Lemma build_tree_root_items_list_witness :
  _build_tree (compare (lit "hostname a
root_items
 x") (lit "hostname a
root_items
 x")) = Raise AttributeError.
Proof.
  assert (∃ r1 r2 r3, compare (lit "hostname a
root_items
 x") (lit "hostname a
root_items
 x") = [r1; r2; r3] ∧ r_path r1 = [] ∧ skipped r1 = false
      ∧ path_parts (r_path r3) = [ROOT_ITEMS] ∧ skipped r3 = false)
    as (r1 & r2 & r3 & -> & H1 & H2 & H3 & H4).
  { destruct (compare _ _) as [|r1 [|r2 [|r3 [|r4 rs]]]] eqn:E;
      vm_compute in E; try discriminate E.
    injection E as E1 E2 E3. exists r1, r2, r3. subst. by vm_compute. }
  apply (build_tree_root_items_list [] [r2] [] r1 r3 [] H1 H2 H3). by left.
Defined.

(** While no kept top-level record has come, the top level keeps no list
    under "root_items". *)
Lemma tree_insert_no_list (parts : list pystr) (item : option DiffItem)
    (es : list (pystr * Tree)) (tree' : Tree) :
  (∀ l, dict_get ROOT_ITEMS es ≠ Some (PyList l)) →
  parts ≠ [] ∨ item = None →
  tree_insert parts item (PyDict es) = Ok tree' →
  ∃ es', tree' = PyDict es' ∧ ∀ l, dict_get ROOT_ITEMS es' ≠ Some (PyList l).
Proof.
  intros Hno H. destruct parts as [|part parts]; simpl.
  - destruct H as [?| ->]; [done|]. intros [= <-]. eauto.
  - destruct (tree_insert parts item _) as [c|e] eqn:E; [|done].
    intros [= <-]. eexists. split; [done|]. intros l.
    destruct (decide (part = ROOT_ITEMS)) as [->|Hne].
    + rewrite dict_get_set_eq. intros [= ->].
      destruct (dict_get ROOT_ITEMS es) as [[es0|l0]|] eqn:Eg; simpl in E.
      * by apply tree_insert_dict in E as [? ?].
      * by destruct (Hno l0).
      * by apply tree_insert_dict in E as [? ?].
    + rewrite dict_get_set_ne by done. apply Hno.
Qed.

Lemma build_no_list (results : list DiffItem) (es : list (pystr * Tree))
    (tree' : Tree) :
  (∀ l, dict_get ROOT_ITEMS es ≠ Some (PyList l)) →
  (∀ r, r ∈ results → r_path r = [] → skipped r = true) →
  build_tree_from results (PyDict es) = Ok tree' →
  ∃ es', tree' = PyDict es' ∧ ∀ l, dict_get ROOT_ITEMS es' ≠ Some (PyList l).
Proof.
  revert es. induction results as [|r results IH]; intros es Hno Hall.
  - intros [= <-]. eauto.
  - cbn [build_tree_from]. unfold build_step.
    destruct (tree_insert _ _ (PyDict es)) as [tree1|e] eqn:E; [|done].
    rewrite bind_Ok. apply tree_insert_no_list in E as (es1 & -> & Hno1).
    + apply IH; [done|]. intros r' Hr'. apply Hall. by right.
    + done.
    + destruct (path_parts (r_path r)) as [|p ps] eqn:Ep; [|by left].
      right. apply path_parts_nil in Ep.
      by rewrite (Hall r ltac:(left) Ep).
Qed.

Lemma root_step_makes_dict (parts : list pystr) (item : option DiffItem)
    (es : list (pystr * Tree)) (tree' : Tree) (ps : list pystr) :
  (∀ l, dict_get ROOT_ITEMS es ≠ Some (PyList l)) →
  tree_insert (ROOT_ITEMS :: ps) item (PyDict es) = Ok tree' →
  ∃ es', root_entry tree' = Some (PyDict es').
Proof.
  intros Hno. cbn [tree_insert].
  destruct (tree_insert ps item _) as [c|e] eqn:E; [|done].
  intros [= <-]. simpl. rewrite dict_get_set_eq.
  destruct (dict_get ROOT_ITEMS es) as [[es0|l0]|] eqn:Eg; simpl in E.
  - apply tree_insert_dict in E as [es' ->]. eauto.
  - by destruct (Hno l0).
  - apply tree_insert_dict in E as [es' ->]. eauto.
Qed.

(** Once the top level keeps a section under "root_items", it keeps one. *)
Lemma tree_insert_keeps_dict (parts : list pystr) (item : option DiffItem)
    (tree tree' : Tree) (es0 : list (pystr * Tree)) :
  root_entry tree = Some (PyDict es0) →
  tree_insert parts item tree = Ok tree' →
  ∃ es', root_entry tree' = Some (PyDict es').
Proof.
  destruct tree as [es|]; [|done]. simpl. intros Hd.
  destruct parts as [|part parts]; simpl.
  - destruct item as [it|]; [|intros [= <-]; eauto].
    by rewrite Hd.
  - destruct (tree_insert parts item _) as [c|e] eqn:E; [|done].
    intros [= <-]. simpl. destruct (decide (part = ROOT_ITEMS)) as [->|Hne].
    + rewrite dict_get_set_eq. rewrite Hd in E. simpl in E.
      apply tree_insert_dict in E as [es' ->]. eauto.
    + rewrite dict_get_set_ne by done. eauto.
Qed.

Lemma build_keeps_dict (results : list DiffItem) (tree tree' : Tree)
    (es0 : list (pystr * Tree)) :
  root_entry tree = Some (PyDict es0) →
  build_tree_from results tree = Ok tree' →
  ∃ es', root_entry tree' = Some (PyDict es').
Proof.
  revert tree es0. induction results as [|r results IH]; intros tree es0 Hd.
  - intros [= <-]. eauto.
  - cbn [build_tree_from]. unfold build_step.
    destruct (tree_insert _ _ tree) as [tree1|e] eqn:E; [|done].
    rewrite bind_Ok.
    destruct (tree_insert_keeps_dict _ _ _ _ _ Hd E) as [es1 Hd1].
    by apply (IH _ _ Hd1).
Qed.

Lemma kept_top_raises (tree : Tree) (r : DiffItem) (es0 : list (pystr * Tree)) :
  root_entry tree = Some (PyDict es0) →
  r_path r = [] → skipped r = false →
  build_step tree r = Raise AttributeError.
Proof.
  destruct tree as [es|]; [|done]. simpl. intros Hd Hp Hs.
  unfold build_step. rewrite Hp, Hs. simpl. by rewrite Hd.
Qed.

(** X13: when a record whose path starts with the segment "root_items"
    comes before any kept top-level record, it makes a section of that
    name; any kept top-level record that comes later then raises
    AttributeError, for a section has no [append]. *)
Theorem build_tree_root_items_dict (pre mid rest : list DiffItem)
    (r1 r2 : DiffItem) (ps : list pystr) :
  (∀ r, r ∈ pre → r_path r = [] → skipped r = true) →
  path_parts (r_path r1) = ROOT_ITEMS :: ps →
  r_path r2 = [] → skipped r2 = false →
  _build_tree (pre ++ r1 :: mid ++ r2 :: rest) = Raise AttributeError.
Proof.
  intros Hpre Hp1 Hp2 Hs2. unfold _build_tree.
  rewrite build_tree_from_app.
  destruct (build_tree_from pre _) as [t0|e] eqn:E0;
    [|by rewrite (build_tree_from_raise _ _ _ E0)].
  rewrite bind_Ok. cbn [build_tree_from].
  apply build_no_list in E0 as (es0 & -> & Hno0); [|done|done].
  destruct (build_step (PyDict es0) r1) as [t1|e] eqn:E1;
    [|by rewrite (tree_insert_raise _ _ _ _ E1)].
  rewrite bind_Ok, build_tree_from_app.
  unfold build_step in E1. rewrite Hp1 in E1.
  destruct (root_step_makes_dict (ROOT_ITEMS :: ps) _ _ _ _ Hno0 E1)
    as [es1 Hd1].
  destruct (build_tree_from mid t1) as [t2|e] eqn:E2;
    [|by rewrite (build_tree_from_raise _ _ _ E2)].
  rewrite bind_Ok. cbn [build_tree_from].
  destruct (build_keeps_dict _ _ _ _ Hd1 E2) as [es2 Hd2].
  by rewrite (kept_top_raises _ _ _ Hd2 Hp2 Hs2).
Qed.

Lemma build_tree_root_items_dict_witness :
  _build_tree (compare (lit "y") (lit "root_items
 x
z")) = Raise AttributeError.
Proof.
  assert (∃ r0 r1 r2 r3, compare (lit "y") (lit "root_items
 x
z") = [r0; r1; r2; r3]
      ∧ (∀ r, r ∈ [r0] → r_path r = [] → skipped r = true)
      ∧ path_parts (r_path r1) = [ROOT_ITEMS]
      ∧ r_path r2 = [] ∧ skipped r2 = false)
    as (r0 & r1 & r2 & r3 & -> & H0 & H1 & H2 & H3).
  { destruct (compare _ _) as [|r0 [|r1 [|r2 [|r3 [|r4 rs]]]]] eqn:E;
      vm_compute in E; try discriminate E.
    injection E as E0 E1 E2 E3. exists r0, r1, r2, r3. subst.
    split; [reflexivity|]. split; [|by vm_compute].
    intros r ->%list_elem_of_singleton _. by vm_compute. }
  exact (build_tree_root_items_dict [r0] [] [r3] r1 r2 [] H0 H1 H2 H3).
Defined.

(** ** Rendering of one record *)

(** X14: a matched parent with score 1.0 renders as the empty string; every
    other record renders as a [div] whose first class is [item] and whose
    second class is the one of its disposition. *)
Theorem render_item_class (item : DiffItem) :
  if r_is_parent item && bool_decide (disposition item = Matched_Identical)
  then _render_item item = []
  else ∃ rest, _render_item item
               = lit "<div class=" ++ QUOTE ++ lit "item "
                 ++ item_class (disposition item) ++ QUOTE ++ rest.
Proof.
  unfold _render_item, disposition.
  destruct (r_is_added item), (r_is_matched item),
    (flt (r_similarity_score item) F1_0), (r_is_parent item);
    cbn [andb negb]; try rewrite bool_decide_true by done;
    try rewrite bool_decide_false by done; try done.
  all: eexists; reflexivity.
Qed.

Lemma concat_singletons {A} (l : list A) :
  concat ((fun x => [x]) <$> l) = l.
Proof. induction l as [|x l IH]; [done|]. simpl. f_equal. exact IH. Qed.

Lemma elem_of_in_range (dp : list nat) (n i : nat) :
  i < n → i ∈ filter (fun j => j < n) dp ↔ i ∈ dp.
Proof. intros Hi. rewrite list_elem_of_filter. tauto. Qed.

(** X15: positions beyond the end of the text play no part in the
    highlighting; when none of the positions lies in the text, the text is
    returned as it is. *)
Theorem highlight_diff_in_range (text : pystr) (diff_positions : list nat) :
  _highlight_diff text diff_positions
  = _highlight_diff text (filter (fun i => i < length text) diff_positions)
  ∧ (filter (fun i => i < length text) diff_positions = [] →
     _highlight_diff text diff_positions = text).
Proof.
  set (dp' := filter _ diff_positions).
  assert (imap (fun i ch => if bool_decide (i ∈ diff_positions)
                            then diff_char ch else [ch]) text
          = imap (fun i ch => if bool_decide (i ∈ dp')
                              then diff_char ch else [ch]) text) as Himap.
  { apply imap_ext. intros i ch Hi. apply lookup_lt_Some in Hi.
    by rewrite (bool_decide_ext _ _ (elem_of_in_range diff_positions _ i Hi)). }
  assert (dp' = [] → _highlight_diff text diff_positions = text) as Hnil.
  { intros Hnil. unfold _highlight_diff.
    destruct diff_positions as [|d dp]; [done|].
    rewrite Himap, Hnil.
    rewrite (imap_ext _ (fun (_ : nat) (ch : char) => [ch]) text).
    - rewrite (imap_const (fun ch : char => [ch])). apply concat_singletons.
    - intros i ch _. cbv beta. rewrite bool_decide_false; [done|].
      by intros ?%elem_of_nil. }
  split; [|done].
  destruct dp' as [|d' dp''] eqn:E; [by rewrite Hnil|].
  unfold _highlight_diff.
  destruct diff_positions as [|d dp]; [done|]. by rewrite Himap.
Qed.

Lemma filter_seq_S (P : nat → Prop) `{!∀ i, Decision (P i)} (a n : nat) :
  length (filter P (seq (S a) n)) = length (filter (P ∘ S) (seq a n)).
Proof.
  revert a. induction n as [|n IH]; intros a; [done|]. simpl.
  rewrite !filter_cons. simpl.
  destruct (decide (P (S a))); simpl; by rewrite IH.
Qed.

Lemma diff_char_length (ch : char) : length (diff_char ch) = 32.
Proof. reflexivity. Qed.

Lemma highlight_length (P : nat → Prop) `{!∀ i, Decision (P i)} (text : pystr) :
  length (concat (imap (fun i ch => if bool_decide (P i)
                                    then diff_char ch else [ch]) text))
  = length text + 31 * length (filter P (seq 0 (length text))).
Proof.
  revert P H. induction text as [|c text IH]; intros P H; [done|].
  rewrite imap_cons. cbn [concat length seq]. rewrite length_app.
  pose proof (IH (P ∘ S) _) as IH'.
  change (length (concat (imap (fun i ch => if bool_decide ((P ∘ S) i)
                                            then diff_char ch else [ch]) text)))
    with (length (concat (imap ((fun i ch => if bool_decide (P i)
                                             then diff_char ch else [ch]) ∘ S)
                               text))) in IH'.
  rewrite IH'. rewrite filter_cons.
  case_bool_decide as HP;
    [rewrite decide_True by done | rewrite decide_False by done];
    cbn [length]; rewrite filter_seq_S; [rewrite diff_char_length|]; lia.
Qed.

(** X16: each position of the text that is marked adds the 31 characters of
    the tags of one [span]; the highlighting adds nothing else. *)
Theorem highlight_diff_length (text : pystr) (diff_positions : list nat) :
  length (_highlight_diff text diff_positions)
  = length text
    + 31 * length (filter (fun i => i ∈ diff_positions)
                          (seq 0 (length text))).
Proof.
  unfold _highlight_diff. destruct diff_positions as [|d dp].
  - rewrite filter_none; [simpl; lia|]. by intros i _ ?%elem_of_nil.
  - apply (highlight_length (fun i => i ∈ d :: dp)).
Qed.

(** ** Records rendered as changed *)

Lemma parse_lines_tokens (lines : list pystr) (st : list (nat * pystr))
    (x : ParsedLine) :
  x ∈ parse_lines lines st → split (p_string x) ≠ [].
Proof.
  revert st. induction lines as [|line rest IH]; intros st; simpl.
  - by intros ?%elem_of_nil.
  - destruct (strip line) as [|c r] eqn:E; [by apply IH|].
    intros [->|?]%elem_of_cons; [|by eapply IH]. simpl.
    rewrite <- E. apply split_strip_nonempty. by rewrite E.
Qed.

Lemma cisco_similarity_self (a : pystr) :
  split a ≠ [] → cisco_similarity a a = F1_0.
Proof.
  intros Hne. unfold cisco_similarity, left_prefix_similarity,
    token_jaccard, token_set.
  destruct (split a) as [|a0 ta] eqn:E; [done|].
  rewrite bool_decide_false by (by intros Hn; apply Hn).
  replace (abs_diff _ _) with 0 by (unfold abs_diff; lia).
  rewrite Nat.max_id. cbn [Nat.ltb Nat.leb Nat.eqb length].
  rewrite common_prefix_len_same.
  set (A := list_to_set (a0 :: ta) : gset pystr).
  assert (A ≠ ∅) as HA by (subst A; set_solver).
  rewrite (bool_decide_false (A = ∅)) by done. cbn [andb].
  replace (A ∩ A) with A by set_solver.
  replace (A ∪ A) with A by set_solver.
  rewrite !truediv_self; [reflexivity| |simpl; lia].
  assert (size A ≠ 0); [|lia].
  apply size_non_empty_iff. by intros ?%leibniz_equiv.
Qed.

Lemma diff_positions_nil (a b : pystr) : diff_positions a b = [] → a = b.
Proof.
  unfold diff_positions. intros [Hf Hs]%app_eq_nil.
  assert (length a = length b) as Hlen.
  { destruct (decide (length a = length b)) as [|Hne]; [done|].
    destruct (max (length a) (length b) - min (length a) (length b)) eqn:E;
      [lia|done]. }
  apply list_eq. intros i.
  destruct (decide (i < length a)) as [Hi|Hi].
  - destruct (decide (a !! i = b !! i)) as [|Hne]; [done|]. exfalso.
    assert (i ∈ filter (fun i => a !! i ≠ b !! i)
                       (seq 0 (min (length a) (length b)))) as Hin.
    { apply list_elem_of_filter. split; [done|]. apply elem_of_seq. lia. }
    rewrite Hf in Hin. by apply elem_of_nil in Hin.
  - rewrite !lookup_ge_None_2 by lia. done.
Qed.

(** X17: a record of the comparison that is rendered as changed has a
    matched text different from its own text and at least one differing
    position, so its highlighting never returns both texts untouched. *)
Theorem changed_has_diff (target_cfg base_cfg : pystr) (r : DiffItem) :
  r ∈ compare target_cfg base_cfg →
  disposition r = Matched_Changed →
  r_string r ≠ r_best_match r ∧ r_diff_positions r ≠ [].
Proof.
  unfold compare. rewrite elem_of_compare_parsed.
  intros [(k & base_item & Hk & ->)|(c & _ & ->)]; [|done].
  set (t := parse target_cfg). set (u := used_before _ _ _).
  assert (split (p_string base_item) ≠ []) as Htok.
  { eapply parse_lines_tokens. eapply list_elem_of_lookup_2, Hk. }
  unfold disposition, compare_line.
  destruct (accepted t u base_item) as [c|] eqn:Ea; simpl; [|done].
  destruct (flt _ F1_0) eqn:Hlt; [intros _|done].
  assert (p_string base_item ≠ p_string c.2) as Hne.
  { intros Heq. destruct (p_is_parent base_item) eqn:Hp.
    - rewrite (search_parent _ _ _ Hp) in Hlt.
      unfold accepted in Ea. rewrite (search_parent _ _ _ Hp) in Ea.
      by destruct (list_find _ _) as [[i c']|].
    - pose proof (search_not_parent t u base_item Hp) as Hs.
      unfold accepted in Ea.
      destruct (search t u base_item) as [[c'|] rs]; [|done]. simpl in *.
      destruct (fle F0_6 rs); [|done]. injection Ea as ->.
      rewrite Hs, <- Heq, cisco_similarity_self in Hlt; done. }
  split; [done|]. by intros ?%diff_positions_nil.
Qed.

Lemma changed_has_diff_witness :
  ∃ r, r ∈ compare (lit "neighbor 10.0.0.1 remote-as 65002")
                   (lit "neighbor 10.0.0.1 remote-as 65001")
       ∧ r_string r ≠ r_best_match r ∧ r_diff_positions r ≠ [].
Proof.
  assert (∃ r rest, compare (lit "neighbor 10.0.0.1 remote-as 65002")
                            (lit "neighbor 10.0.0.1 remote-as 65001")
                    = r :: rest
                    ∧ disposition r = Matched_Changed) as (r & rest & Hc & Hd).
  { destruct (compare _ _) as [|r rest] eqn:E; vm_compute in E;
      [discriminate E|].
    injection E as <- <-. do 2 eexists. split; [reflexivity|].
    vm_compute. reflexivity. }
  assert (Hr : r ∈ compare (lit "neighbor 10.0.0.1 remote-as 65002")
                           (lit "neighbor 10.0.0.1 remote-as 65001"))
    by (rewrite Hc; apply list_elem_of_here).
  exists r. split; [exact Hr|]. exact (changed_has_diff _ _ r Hr Hd).
Defined.

(** ** The matcher never raises *)

Lemma truediv_checked_ok (a b : nat) :
  b ≠ 0 → truediv_checked a b = Ok (truediv a b).
Proof. by destruct b. Qed.

Lemma left_prefix_similarity_checked_ok (a b : pystr) :
  left_prefix_similarity_checked a b = Ok (left_prefix_similarity a b).
Proof.
  unfold left_prefix_similarity_checked, left_prefix_similarity.
  destruct (_ =? 0) eqn:E; [done|].
  apply truediv_checked_ok. by apply Nat.eqb_neq in E.
Qed.

Lemma token_jaccard_checked_ok (a b : pystr) :
  token_jaccard_checked a b = Ok (token_jaccard a b).
Proof.
  unfold token_jaccard_checked, token_jaccard.
  destruct (bool_decide (token_set a = ∅)) eqn:Ea;
    [destruct (bool_decide (token_set b = ∅)) eqn:Eb; [done|]|]; simpl;
    apply truediv_checked_ok; intros Hs; apply size_empty_iff in Hs.
  - apply bool_decide_eq_false in Eb. apply Eb. set_solver.
  - apply bool_decide_eq_false in Ea. apply Ea. set_solver.
Qed.

Lemma cisco_similarity_checked_ok (a b : pystr) :
  cisco_similarity_checked a b = Ok (cisco_similarity a b).
Proof.
  unfold cisco_similarity_checked, cisco_similarity, other_family_checked.
  destruct (split a) as [|a0 ta] eqn:Ea; [done|].
  destruct (split b) as [|b0 tb] eqn:Eb; [done|].
  rewrite !bool_decide_false by done. cbn [getitem lookup list_lookup].
  rewrite !bind_Ok.
  destruct (bool_decide (a0 ≠ b0)); [done|].
  destruct (4 <? _); [done|].
  by rewrite left_prefix_similarity_checked_ok, token_jaccard_checked_ok.
Qed.

Lemma best_candidate_checked_ok (s : pystr) (p : bool) (cands : list Candidate)
    (best_match : option Candidate) (best_score : pyfloat) :
  best_candidate_checked s p cands best_match best_score
  = Ok (best_candidate s p cands best_match best_score).
Proof.
  revert best_match best_score.
  induction cands as [|c cands IH]; intros best_match best_score; [done|].
  cbn [best_candidate_checked best_candidate]. destruct p.
  - by destruct (bool_decide _).
  - rewrite cisco_similarity_checked_ok, bind_Ok. by destruct (flt _ _).
Qed.

Lemma differing_checked_ok (a b : pystr) (indices : list nat) :
  (∀ i, i ∈ indices → i < length a ∧ i < length b) →
  differing_checked a b indices
  = Ok (filter (fun i => a !! i ≠ b !! i) indices).
Proof.
  induction indices as [|i indices IH]; intros Hin; [done|].
  cbn [differing_checked].
  destruct (Hin i ltac:(left)) as [Ha Hb].
  destruct (lookup_lt_is_Some_2 a i Ha) as [x Hx].
  destruct (lookup_lt_is_Some_2 b i Hb) as [y Hy].
  unfold getitem. rewrite Hx, Hy, !bind_Ok.
  rewrite IH by (intros j Hj; apply Hin; by right). rewrite bind_Ok.
  destruct (decide (x = y)) as [->|Hne].
  - rewrite bool_decide_false by (by intros ?).
    rewrite filter_cons_False; [done|].
    intros H. apply H. etrans; [exact Hx|]. symmetry. exact Hy.
  - rewrite bool_decide_true by done.
    rewrite filter_cons_True; [done|].
    intros H. apply Hne.
    assert (Some x = Some y) as [= ?]; [|done].
    etrans; [symmetry; exact Hx|]. etrans; [exact H|exact Hy].
Qed.

Lemma diff_positions_checked_ok (a b : pystr) :
  diff_positions_checked a b = Ok (diff_positions a b).
Proof.
  unfold diff_positions_checked, diff_positions.
  rewrite differing_checked_ok; [done|].
  intros i Hi%elem_of_seq. lia.
Qed.

Lemma compare_line_checked_ok (t : list ParsedLine) (u : gset nat)
    (x : ParsedLine) :
  compare_line_checked t u x = Ok (compare_line t u x).
Proof.
  unfold compare_line_checked, compare_line, accepted, search.
  rewrite best_candidate_checked_ok, bind_Ok.
  destruct (best_candidate _ _ _ _ _) as [[c|] score]; [|done]. simpl.
  destruct (fle F0_6 score); [|done].
  by rewrite diff_positions_checked_ok.
Qed.

Lemma compare_base_checked_ok (t b : list ParsedLine) (u : gset nat) :
  compare_base_checked t b u = Ok (compare_base t b u).
Proof.
  revert u. induction b as [|x b IH]; intros u; [done|].
  cbn [compare_base_checked compare_base].
  rewrite compare_line_checked_ok, bind_Ok.
  destruct (compare_line t u x) as [r u1]. simpl.
  rewrite IH, bind_Ok. by destruct (compare_base t b u1).
Qed.

Lemma compare_checked_ok (target_cfg base_cfg : pystr) :
  compare_checked target_cfg base_cfg = Ok (compare target_cfg base_cfg).
Proof.
  unfold compare_checked, compare, compare_parsed, parse_checked.
  rewrite !parse_loop_checked_ok by done. rewrite !bind_Ok.
  change (parse_lines (splitlines ?c) (reverse [])) with (parse c).
  rewrite compare_base_checked_ok, bind_Ok.
  by destruct (compare_base _ _ _).
Qed.

(** ** Configurations without a structural line (C7) *)

(** C7: the parser raises on no text, and the comparison raises on no pair
    of texts. When the base text parses to no structural line, the
    comparison returns one record per parsed target line, each of them
    Unmatched-Added; when the target text parses to no structural line, it
    returns one record per parsed base line, each of them
    Unmatched-Removed. *)
Theorem empty_input_degrades (target_cfg base_cfg : pystr) :
  parse_checked target_cfg = Ok (parse target_cfg)
  ∧ parse_checked base_cfg = Ok (parse base_cfg)
  ∧ ∃ results,
      compare_checked target_cfg base_cfg = Ok results
      ∧ (parse base_cfg = [] →
           length results = length (parse target_cfg)
           ∧ ∀ r, r ∈ results → disposition r = Unmatched_Added)
      ∧ (parse target_cfg = [] →
           length results = length (parse base_cfg)
           ∧ ∀ r, r ∈ results → disposition r = Unmatched_Removed).
Proof.
  split; [unfold parse_checked; by rewrite parse_loop_checked_ok|].
  split; [unfold parse_checked; by rewrite parse_loop_checked_ok|].
  exists (compare target_cfg base_cfg).
  split; [apply compare_checked_ok|]. unfold compare, compare_parsed. split.
  - intros ->. simpl. rewrite added_items_empty, length_fmap.
    split; [done|]. by intros r (x & -> & _)%list_elem_of_fmap.
  - intros ->. rewrite compare_base_empty_target.
    unfold added_items, unused. simpl. rewrite app_nil_r, length_fmap.
    split; [done|]. intros r (x & -> & _)%list_elem_of_fmap.
    unfold compare_line, accepted, search. simpl. by destruct (p_is_parent x).
Qed.

Lemma empty_input_degrades_witness :
  ∃ results,
    compare_checked (lit "hostname sw1
vlan 10") (lit "
   ") = Ok results
    ∧ length results = 2
    ∧ Forall (fun r => disposition r = Unmatched_Added) results.
Proof.
  destruct (empty_input_degrades (lit "hostname sw1
vlan 10") (lit "
   ")) as (_ & _ & results & Hr & Hb & _).
  destruct (Hb eq_refl) as [Hl Hd].
  exists results. split; [exact Hr|]. split; [exact Hl|].
  apply Forall_forall. exact Hd.
Defined.

(** ** Disposition of the records (C3) *)

Lemma flt_F1_0_irrefl : flt F1_0 F1_0 = false.
Proof. reflexivity. Qed.






(** ** Records and tree nodes (C4) *)

Lemma filter_iff_in {A} (P Q : A → Prop) `{!∀ x, Decision (P x)}
    `{!∀ x, Decision (Q x)} (l : list A) :
  (∀ x, x ∈ l → P x ↔ Q x) → filter P l = filter Q l.
Proof.
  induction l as [|x l IH]; intros Hl; [done|].
  rewrite !filter_cons.
  rewrite IH by (intros y Hy; apply Hl; by right).
  destruct (decide (P x)) as [HP|HP], (decide (Q x)) as [HQ|HQ]; try done.
  - destruct HQ. by apply (Hl x ltac:(left)).
  - destruct HP. by apply (Hl x ltac:(left)).
Qed.

(** The records that [_build_tree] puts in no list, by disposition. *)
Lemma skipped_disposition (target_cfg base_cfg : pystr) (r : DiffItem) :
  r ∈ compare target_cfg base_cfg →
  skipped r = false
  ↔ ¬ (r_is_parent r = true
       ∧ (disposition r = Unmatched_Removed ∨ disposition r = Unmatched_Added)).
Proof.
  unfold compare. rewrite elem_of_compare_parsed.
  intros [(k & base_item & _ & ->)|(c & _ & ->)].
  - unfold compare_line, skipped, disposition.
    destruct (accepted _ _ _) as [c|]; simpl.
    + rewrite andb_false_r. split; [|done]. intros _ [_ [H|H]].
      * by destruct (flt _ _).
      * by destruct (flt _ _).
    + rewrite andb_true_r. destruct (p_is_parent base_item); split;
        try done; try (by intros _ [? _]).
      intros H. destruct H. by split; [|left].
  - unfold skipped, disposition, added_item. simpl. rewrite andb_true_r.
    destruct (p_is_parent c.2); split; try done; try (by intros _ [? _]).
    intros H. destruct H. by split; [|right].
Qed.

(** C4: on the records of a comparison in which no path segment is the text
    "root_items", the tree builder raises nothing, and the list kept by the
    node reached by the keys [ks] holds, in result order, exactly the
    records whose path splits into [ks], except the parent headers whose
    disposition is Unmatched-Removed or Unmatched-Added, which are in no
    list. So every other record is in the list of one node, the node of its
    own path, and every record present in a node has the path of that
    node. *)
Theorem tree_placement_by_disposition (target_cfg base_cfg : pystr) :
  let results := compare target_cfg base_cfg in
  (∀ r, r ∈ results → ROOT_ITEMS ∉ path_parts (r_path r)) →
  ∃ tree, _build_tree results = Ok tree
    ∧ (∀ ks, ROOT_ITEMS ∉ ks →
         items_at ks tree
         = filter (fun r => path_parts (r_path r) = ks
                     ∧ ¬ (r_is_parent r = true
                          ∧ (disposition r = Unmatched_Removed
                             ∨ disposition r = Unmatched_Added)))
                  results)
    ∧ (∀ ks r, ROOT_ITEMS ∉ ks → r ∈ items_at ks tree →
         r ∈ results ∧ path_parts (r_path r) = ks).
Proof.
  intros results Hall.
  destruct (build_tree_from_ok results (PyDict []) Hall sound_empty)
    as (tree & Ht & _ & Hi).
  assert (∀ ks, ROOT_ITEMS ∉ ks →
            items_at ks tree
            = filter (fun r => path_parts (r_path r) = ks
                        ∧ ¬ (r_is_parent r = true
                             ∧ (disposition r = Unmatched_Removed
                                ∨ disposition r = Unmatched_Added)))
                     results) as Hitems.
  { intros ks Hks. rewrite (Hi ks Hks).
    replace (items_at ks (PyDict [])) with (@nil DiffItem) by (by destruct ks).
    simpl. apply filter_iff_in. intros r Hr.
    by rewrite (skipped_disposition _ _ r Hr). }
  exists tree. split; [done|]. split; [done|].
  intros ks r Hks Hr. rewrite (Hitems ks Hks) in Hr.
  apply list_elem_of_filter in Hr as [[? _] ?]. done.
Qed.

Lemma tree_placement_by_disposition_witness :
  let results := compare (lit "interface e1
 shutdown
vlan 10") (lit "vlan 10
interface e2
 mtu 1500") in
  ∃ tree, _build_tree results = Ok tree
    ∧ r_string <$> items_at [] tree = [lit "vlan 10"]
    ∧ r_string <$> items_at [lit "interface e1"] tree = [lit "shutdown"]
    ∧ r_string <$> items_at [lit "interface e2"] tree = [lit "mtu 1500"].
Proof.
  intros results.
  assert (Hall : ∀ r, r ∈ results → ROOT_ITEMS ∉ path_parts (r_path r)).
  { apply Forall_forall. apply (bool_decide_unpack _). by vm_compute. }
  destruct (tree_placement_by_disposition _ _ Hall) as (tree & Ht & Hi & _).
  clear Hall. exists tree. split; [exact Ht|]. clear Ht.
  assert (H0 : ROOT_ITEMS ∉ @nil pystr)
    by (apply (bool_decide_unpack _); by vm_compute).
  assert (H1 : ROOT_ITEMS ∉ [lit "interface e1"])
    by (apply (bool_decide_unpack _); by vm_compute).
  assert (H2 : ROOT_ITEMS ∉ [lit "interface e2"])
    by (apply (bool_decide_unpack _); by vm_compute).
  pose proof (Hi _ H0) as E0. pose proof (Hi _ H1) as E1.
  pose proof (Hi _ H2) as E2. clear Hi H0 H1 H2.
  rewrite E0, E1, E2. clear E0 E1 E2.
  split_and!; vm_compute; reflexivity.
Defined.

Lemma added_parent_in_no_node :
  let results := compare (lit "interface e1
 shutdown") [] in
  ∃ r tree, results !! 0 = Some r
    ∧ r_is_parent r = true
    ∧ disposition r = Unmatched_Added
    ∧ _build_tree results = Ok tree
    ∧ items_at (path_parts (r_path r)) tree = []
    ∧ _build_tree (compare (lit "hostname a
root_items
 x") (lit "hostname a
root_items
 x")) = Raise AttributeError.
Proof.
  intros results. subst results.
  destruct (compare (lit "interface e1
 shutdown") []) as [|r rs] eqn:E; vm_compute in E; [discriminate E|].
  injection E as Er Ers. subst r rs.
  eexists _, _. split; [reflexivity|]. split; [reflexivity|].
  split; [reflexivity|]. split; [by vm_compute|].
  split; by vm_compute.
Qed.
